(** * kfp.dsl._ops_group: scope-tree construction

    A shallow embedding of [sdk/python/kfp/dsl/_ops_group.py].

    Python objects are mutable and shared: the pipeline's lists and a parent's
    [groups] list refer to the very same [OpsGroup] object, and [__enter__]
    mutates it in place.  Objects therefore live in a store indexed by object
    identity, and every method is a state transformer that may raise. *)

From stdpp Require Import gmap strings list pretty.
From Stdlib Require Import Ascii String.

Open Scope string_scope.
Open Scope list_scope.
Open Scope stdpp_scope.
Open Scope nat_scope.

(** ** Exceptions *)

Inductive exn :=
| ValueError (msg : string)
| AssertionError
| AttributeError        (* method call on [None] *)
| TypeError             (* [re.match] on a subject that is not a string *)
| ReError               (* whatever [re] raises on a pattern, taken as is *)
| NotModelled           (* a pattern outside the fragment [py_re_match] covers *)
| StackUnderflowError   (* [pop] on an empty stack *)
| RecursionError        (* Python's recursion depth exhausted *)
| DanglingReference.    (* an identity without object: excluded by well-formedness *)

Definition NoActiveContextError : exn := ValueError "Default pipeline not defined.".
Definition InvalidExitOpError : exn := ValueError "exit_op cannot depend on any other ops.".
Definition InvalidParallelismError : exn := AssertionError.

Global Instance exn_eq_dec : EqDecision exn.
Proof. solve_decision. Defined.

(** ** Objects *)

(** Modelled from the spec: the task objects (the module [_container_op] with
    its class [ContainerOp] is not among the sources).  A task exposes a [dependent_names] query and a
    mutable [is_exit_handler] flag, and is compared by identity. *)
Record ContainerOp := mkContainerOp {
  dependent_names : list string;
  is_exit_handler : bool
}.

(** Modelled from the spec: the loop-argument / item-list value type (the
    modules [_for_loop] and [_pipeline_param] are not among the sources).  The spec
    gives it as a closed variant over a static collection, a dynamic parameter
    reference and an already wrapped value; wrapping a static collection
    records the loop's identifier code. *)
Inductive LoopArguments :=
| LoopArgumentsOfItems (items : list string) (code : string)
| LoopArgumentsOfParam (param : string).

Inductive loop_input :=
| ItemList (items : list string)
| PipelineParam (param : string)
| Wrapped (la : LoopArguments).

(** [isinstance(loop_args, _pipeline_param.PipelineParam)] *)
Definition isinstance_PipelineParam (v : loop_input) : bool :=
  match v with PipelineParam _ => true | _ => false end.

(** [isinstance(loop_args, _for_loop.LoopArguments)] *)
Definition isinstance_LoopArguments (v : loop_input) : bool :=
  match v with Wrapped _ => true | _ => false end.

(** [_for_loop.LoopArguments.from_pipeline_param] *)
Definition from_pipeline_param (v : loop_input) : loop_input :=
  match v with
  | PipelineParam p => Wrapped (LoopArgumentsOfParam p)
  | _ => v
  end.

(** [_for_loop.LoopArguments(loop_args, code)] *)
Definition LoopArguments_new (v : loop_input) (code : string) : loop_input :=
  match v with
  | ItemList items => Wrapped (LoopArgumentsOfItems items code)
  | _ => v
  end.

(** The attributes of an [OpsGroup] object, with those its subclasses add:
    [exit_op] (ExitHandler) and [items_is_pipeline_param] (ParallelFor).
    References to other objects are identities. *)
Record OpsGroup := mkOpsGroup {
  type : string;
  ops : list nat;
  groups : list nat;
  name : option string;
  dependencies : list nat;
  recursive_ref : option nat;
  loop_args : option loop_input;
  parallelism : option Z;
  exit_op : option nat;
  items_is_pipeline_param : option bool
}.

Definition set_ops (l : list nat) (g : OpsGroup) : OpsGroup :=
  mkOpsGroup (type g) l (groups g) (name g) (dependencies g) (recursive_ref g)
             (loop_args g) (parallelism g) (exit_op g) (items_is_pipeline_param g).
Definition set_groups (l : list nat) (g : OpsGroup) : OpsGroup :=
  mkOpsGroup (type g) (ops g) l (name g) (dependencies g) (recursive_ref g)
             (loop_args g) (parallelism g) (exit_op g) (items_is_pipeline_param g).
Definition set_name (n : option string) (g : OpsGroup) : OpsGroup :=
  mkOpsGroup (type g) (ops g) (groups g) n (dependencies g) (recursive_ref g)
             (loop_args g) (parallelism g) (exit_op g) (items_is_pipeline_param g).
Definition set_dependencies (l : list nat) (g : OpsGroup) : OpsGroup :=
  mkOpsGroup (type g) (ops g) (groups g) (name g) l (recursive_ref g)
             (loop_args g) (parallelism g) (exit_op g) (items_is_pipeline_param g).
Definition set_recursive_ref (r : option nat) (g : OpsGroup) : OpsGroup :=
  mkOpsGroup (type g) (ops g) (groups g) (name g) (dependencies g) r
             (loop_args g) (parallelism g) (exit_op g) (items_is_pipeline_param g).
Definition set_loop_args (v : option loop_input) (g : OpsGroup) : OpsGroup :=
  mkOpsGroup (type g) (ops g) (groups g) (name g) (dependencies g) (recursive_ref g)
             v (parallelism g) (exit_op g) (items_is_pipeline_param g).
Definition set_parallelism (v : option Z) (g : OpsGroup) : OpsGroup :=
  mkOpsGroup (type g) (ops g) (groups g) (name g) (dependencies g) (recursive_ref g)
             (loop_args g) v (exit_op g) (items_is_pipeline_param g).
Definition set_exit_op (v : option nat) (g : OpsGroup) : OpsGroup :=
  mkOpsGroup (type g) (ops g) (groups g) (name g) (dependencies g) (recursive_ref g)
             (loop_args g) (parallelism g) v (items_is_pipeline_param g).
Definition set_items_is_pipeline_param (v : option bool) (g : OpsGroup) : OpsGroup :=
  mkOpsGroup (type g) (ops g) (groups g) (name g) (dependencies g) (recursive_ref g)
             (loop_args g) (parallelism g) (exit_op g) v.

(** Modelled from the spec: the active build context (the module [_pipeline]
    with its class [Pipeline] is not among the sources).  It holds the groups registered so far, in order of
    registration (the [groups] attribute that the recursion lookup scans), the
    stack of currently open groups (top last) and the group-id counter. *)
Module Pipeline.
Record t := mk {
  groups : list nat;
  stack : list nat;
  group_id : N
}.
End Pipeline.

(** ** The store *)

Record State := mkState {
  group_heap : gmap nat OpsGroup;
  op_heap : gmap nat ContainerOp;
  default_pipeline : option Pipeline.t      (* [Pipeline._default_pipeline] *)
}.

Inductive Result (A : Type) :=
| Ok (a : A)
| Raise (e : exn).
Arguments Ok {A} a.
Arguments Raise {A} e.

(** A method call: it returns or raises, and leaves a store either way. *)
Definition M (A : Type) : Type := State → Result A * State.

Definition raise {A} (e : exn) : M A := λ st, (Raise e, st).

Global Instance M_ret : MRet M := λ A a st, (Ok a, st).
Global Instance M_bind : MBind M := λ A B k m st,
  match m st with
  | (Ok a, st') => k a st'
  | (Raise e, st') => (Raise e, st')
  end.

Definition get_group (g : nat) : M OpsGroup :=
  λ st, match group_heap st !! g with
        | Some o => (Ok o, st)
        | None => (Raise DanglingReference, st)
        end.

Definition update_group (g : nat) (f : OpsGroup → OpsGroup) : M unit :=
  λ st, match group_heap st !! g with
        | Some o => (Ok tt, mkState (<[g := f o]> (group_heap st)) (op_heap st)
                                    (default_pipeline st))
        | None => (Raise DanglingReference, st)
        end.

Definition get_op (o : nat) : M ContainerOp :=
  λ st, match op_heap st !! o with
        | Some c => (Ok c, st)
        | None => (Raise DanglingReference, st)
        end.

Definition update_op (o : nat) (f : ContainerOp → ContainerOp) : M unit :=
  λ st, match op_heap st !! o with
        | Some c => (Ok tt, mkState (group_heap st) (<[o := f c]> (op_heap st))
                                    (default_pipeline st))
        | None => (Raise DanglingReference, st)
        end.

(** A new object gets an identity no object has. *)
Definition alloc_group (o : OpsGroup) : M nat :=
  λ st, let g := fresh (dom (group_heap st)) in
        (Ok g, mkState (<[g := o]> (group_heap st)) (op_heap st) (default_pipeline st)).

Definition set_pipeline (p : Pipeline.t) : M unit :=
  λ st, (Ok tt, mkState (group_heap st) (op_heap st) (Some p)).

(** [for x in l: body(x)] *)
Fixpoint for_each {A} (l : list A) (body : A → M unit) : M unit :=
  match l with
  | [] => mret tt
  | x :: l' => body x;; for_each l' body
  end.

(** ** Strings *)

(** [s.replace(a, b)] for one-character [a] and [b]. *)
Fixpoint replace (a b : ascii) (s : string) : string :=
  match s with
  | EmptyString => EmptyString
  | String c s' => String (if Ascii.eqb c a then b else c) (replace a b s')
  end.

(** [l.remove(x)]: drops the first item equal to [x]. *)
Fixpoint list_remove (x : nat) (l : list nat) : list nat :=
  match l with
  | [] => []
  | y :: l' => if decide (x = y) then l' else y :: list_remove x l'
  end.

(** ** The pipeline's operations *)

(** [_pipeline.Pipeline.get_default_pipeline()] as the source tests its
    result: the active context, or [None]. *)
Definition get_default_pipeline : M (option Pipeline.t) :=
  λ st, (Ok (default_pipeline st), st).

(** A method call on the result of [get_default_pipeline()]: on [None] it is an
    attribute lookup on [None]. *)
Definition the_pipeline : M Pipeline.t :=
  p ← get_default_pipeline;
  match p with
  | Some p => mret p
  | None => raise AttributeError
  end.

(** Modelled from the spec: [push_ops_group] of the absent [_pipeline.Pipeline].
    The group is registered as a child of the current top of the stack (if any),
    pushed onto the stack and added to the registered groups. *)
Definition push_ops_group (group : nat) : M unit :=
  p ← the_pipeline;
  match last (Pipeline.stack p) with
  | Some top => update_group top (λ t, set_groups (groups t ++ [group]) t)
  | None => mret tt
  end;;
  set_pipeline (Pipeline.mk (Pipeline.groups p ++ [group])
                            (Pipeline.stack p ++ [group])
                            (Pipeline.group_id p)).

(** Modelled from the spec: [pop_ops_group] of the absent [_pipeline.Pipeline].
    It drops the top of the stack and fails on an empty stack. *)
Definition pop_ops_group : M unit :=
  p ← the_pipeline;
  match Pipeline.stack p with
  | [] => raise StackUnderflowError
  | _ => set_pipeline (Pipeline.mk (Pipeline.groups p)
                                   (removelast (Pipeline.stack p))
                                   (Pipeline.group_id p))
  end.

(** Modelled from the spec: [get_next_group_id] of the absent
    [_pipeline.Pipeline], a strictly increasing counter. *)
Definition get_next_group_id : M N :=
  p ← the_pipeline;
  let id := (Pipeline.group_id p + 1)%N in
  set_pipeline (Pipeline.mk (Pipeline.groups p) (Pipeline.stack p) id);;
  mret id.

(** ** OpsGroup *)

(** [OpsGroup.__init__(group_type, name)], with the allocation of the object. *)
Definition __init__ (group_type : string) (name : option string) : M nat :=
  alloc_group (mkOpsGroup group_type [] [] name [] None None None None None).

(** [name_pattern] of [_get_matching_opsgroup_already_in_pipeline]. *)
Definition name_pattern (group_type name : string) : string :=
  "^" +:+ replace "_" "-" (group_type +:+ "-" +:+ name +:+ "-") +:+ "[\d]+$".

(** The loop of [_get_matching_opsgroup_already_in_pipeline] over the
    pipeline's groups.  [re_match] is [re.match] seen as a truth value; a group
    whose type differs is skipped before its name is looked at. *)
Fixpoint find_matching (re_match : string → string → Result bool)
    (group_type pattern : string) (l : list nat) : M (option nat) :=
  match l with
  | [] => mret None
  | g :: l' =>
      o ← get_group g;
      if bool_decide (type o = group_type) then
        match name o with
        | None => raise TypeError
        | Some n =>
            match re_match pattern n with
            | Raise e => raise e
            | Ok true => mret (Some g)
            | Ok false => find_matching re_match group_type pattern l'
            end
        end
      else find_matching re_match group_type pattern l'
  end.

Definition _get_matching_opsgroup_already_in_pipeline
    (re_match : string → string → Result bool)
    (group_type : string) (name : option string) : M (option nat) :=
  p ← get_default_pipeline;
  match p with
  | None => raise (ValueError "Default pipeline not defined.")
  | Some p =>
      match name with
      | None => mret None
      | Some name =>
          find_matching re_match group_type (name_pattern group_type name)
                        (Pipeline.groups p)
      end
  end.

Definition _make_name_unique (self : nat) : M unit :=
  p ← get_default_pipeline;
  match p with
  | None => raise (ValueError "Default pipeline not defined.")
  | Some _ =>
      o ← get_group self;
      id ← get_next_group_id;
      update_group self
        (set_name (Some (type o +:+ "-"
                         +:+ (match name o with None => "" | Some n => n +:+ "-" end)
                         +:+ pretty id)));;
      update_group self (λ o, set_name (replace "_" "-" <$> name o) o)
  end.

Definition __enter__ (re_match : string → string → Result bool) (self : nat) : M nat :=
  p ← get_default_pipeline;
  match p with
  | None => raise (ValueError "Default pipeline not defined.")
  | Some _ =>
      o ← get_group self;
      r ← _get_matching_opsgroup_already_in_pipeline re_match (type o) (name o);
      update_group self (set_recursive_ref r);;
      match r with
      | None => _make_name_unique self
      | Some _ => mret tt
      end;;
      push_ops_group self;;
      mret self
  end.

Definition __exit__ (self : nat) : M unit :=
  pop_ops_group.

Definition after (self dependency : nat) : M nat :=
  update_group self (λ o, set_dependencies (dependencies o ++ [dependency]) o);;
  mret self.

(** [remove_op_recursive]; [depth] is the recursion depth Python still allows.
    The loop runs over [self.groups] as read when it starts: the calls below
    change [ops] lists only. *)
Fixpoint remove_op_recursive (depth : nat) (self op : nat) : M unit :=
  match depth with
  | 0 => raise RecursionError
  | S d =>
      o ← get_group self;
      (if bool_decide (op ∈ ops o)
       then update_group self (λ o, set_ops (list_remove op (ops o)) o)
       else mret tt);;
      o ← get_group self;
      for_each (groups o) (λ sub_group, remove_op_recursive d sub_group op)
  end.

(** Modelled from the spec: [remove_op_from_groups] of the absent
    [_pipeline.Pipeline]; it removes the task recursively from every
    registered group. *)
Definition remove_op_from_groups (depth : nat) (op : nat) : M unit :=
  p ← the_pipeline;
  for_each (Pipeline.groups p) (λ group, remove_op_recursive depth group op).

(** ** The group variants *)

Module ExitHandler.
Definition __init__ (depth : nat) (exit_op : nat) : M nat :=
  self ← __init__ "exit_handler" None;
  c ← get_op exit_op;
  match dependent_names c with
  | _ :: _ => raise (ValueError "exit_op cannot depend on any other ops.")
  | [] =>
      remove_op_from_groups depth exit_op;;
      update_op exit_op (λ c, mkContainerOp (dependent_names c) true);;
      update_group self (set_exit_op (Some exit_op));;
      mret self
  end.
End ExitHandler.

Module ParallelFor.
Definition TYPE_NAME : string := "for_loop".

(** [code] is what [_get_unique_id_code()] drew for this loop.  The source
    sets [items_is_pipeline_param] before it calls [OpsGroup.__init__], which
    does not touch it; here the object exists from [__init__] on. *)
Definition __init__ (code : string) (loop_args : loop_input) : M nat :=
  let items_is_pipeline_param := isinstance_PipelineParam loop_args in
  let group_name := "for-loop-" +:+ code in
  self ← __init__ TYPE_NAME (Some group_name);
  update_group self (set_items_is_pipeline_param (Some items_is_pipeline_param));;
  let loop_args :=
    if items_is_pipeline_param then from_pipeline_param loop_args
    else if negb items_is_pipeline_param && negb (isinstance_LoopArguments loop_args)
         then LoopArguments_new loop_args code
         else loop_args in
  update_group self (set_loop_args (Some loop_args));;
  mret self.

Definition __enter__ (re_match : string → string → Result bool) (self : nat)
    : M (option loop_input) :=
  _ ← __enter__ re_match self;
  o ← get_group self;
  mret (loop_args o).
End ParallelFor.

Module Parallelism.
Definition TYPE_NAME : string := "parallel_limit".

Definition __init__ (parallelism : option Z) : M nat :=
  self ← __init__ TYPE_NAME None;
  match parallelism with
  | Some n =>
      if bool_decide (n ≠ 0%Z) then
        if bool_decide (0 < n)%Z
        then update_group self (set_parallelism (Some n));; mret self
        else raise AssertionError
      else mret self
  | None => mret self
  end.
End Parallelism.

(** ** Regular expressions

    [re.match] is a parameter of the methods above.  What the recursion lookup
    needs from it is the reading of ['^' + prefix + '[\d]+$'] for a prefix
    without metacharacters: the subject is the prefix, then one or more decimal
    digits, then the end of the string, which [$] also finds before one final
    line feed.  Characters are code points below 256, where the decimal digits
    are [0] to [9]. *)

Definition is_digit (c : ascii) : bool :=
  (48 <=? nat_of_ascii c)%nat && (nat_of_ascii c <=? 57)%nat.

Definition regex_special (c : ascii) : bool :=
  bool_decide (c ∈ list_ascii_of_string ".^$*+?{}[]\|()").

Fixpoint regex_literal (s : string) : bool :=
  match s with
  | EmptyString => true
  | String c s' => negb (regex_special c) && regex_literal s'
  end.

Fixpoint strip_prefix (p s : string) : option string :=
  match p with
  | EmptyString => Some s
  | String c p' =>
      match s with
      | String d s' => if Ascii.eqb c d then strip_prefix p' s' else None
      | EmptyString => None
      end
  end.

Definition line_feed : ascii := ascii_of_nat 10.

(** [[\d]+$] at the start of [s] *)
Fixpoint digits_then_end (s : string) : bool :=
  match s with
  | EmptyString => false
  | String c s' =>
      is_digit c &&
      match s' with
      | EmptyString => true
      | String d EmptyString => Ascii.eqb d line_feed || is_digit d
      | _ => digits_then_end s'
      end
  end.

Definition literal_digits_match (lit subject : string) : bool :=
  match strip_prefix lit subject with
  | Some rest => digits_then_end rest
  | None => false
  end.

(** The pattern ['^' + lit + '[\d]+$'] with [lit] free of metacharacters. *)
Fixpoint parse_body (s : string) : option string :=
  if String.eqb s "[\d]+$" then Some EmptyString
  else match s with
       | EmptyString => None
       | String c s' =>
           if regex_special c then None else String c <$> parse_body s'
       end.

Definition parse_pattern (pattern : string) : option string :=
  match pattern with
  | String "^" body => parse_body body
  | _ => None
  end.

(** [re.match] on the patterns of that shape. *)
Definition py_re_match (pattern subject : string) : Result bool :=
  match parse_pattern pattern with
  | Some lit => Ok (literal_digits_match lit subject)
  | None => Raise NotModelled
  end.

(** What a [re_match] has to satisfy to read literal prefixes as [re] does. *)
Definition literal_semantics (re_match : string → string → Result bool) : Prop :=
  ∀ lit subject, regex_literal lit = true →
    re_match ("^" +:+ lit +:+ "[\d]+$") subject = Ok (literal_digits_match lit subject).

(** The pattern as the spec words it: [<kind>-<base_name>-<digits>], the kind
    and the base name taken as they are. *)
Fixpoint all_digits (s : string) : bool :=
  match s with
  | EmptyString => true
  | String c s' => is_digit c && all_digits s'
  end.

Definition spec_pattern_match (kind base_name n : string) : bool :=
  match strip_prefix (kind +:+ "-" +:+ base_name +:+ "-") n with
  | Some rest => negb (String.eqb rest "") && all_digits rest
  | None => false
  end.

(** ** Scopes

    A [with] statement evaluates its context manager, enters it, runs the body
    and exits it on every path out of the body; [__exit__] returns [None], so
    an exception of the body goes on after the exit. *)

(** The context manager of a [with] statement: an object built before, or one
    built on the spot.  [NewOpsGroup] stands for the constructors that only
    call [OpsGroup.__init__] and record a payload ([Condition], [Graph]). *)
Inductive ctor :=
| Existing (g : nat)
| NewOpsGroup (group_type : string) (name : option string)
| NewExitHandler (exit_op : nat)
| NewParallelFor (code : string) (loop_args : loop_input)
| NewParallelism (parallelism : option Z).

#[warnings="-register-all"]
Inductive stmt :=
| With (c : ctor) (body : list stmt).

Definition eval_ctor (depth : nat) (c : ctor) : M nat :=
  match c with
  | Existing g => mret g
  | NewOpsGroup group_type name => __init__ group_type name
  | NewExitHandler exit_op => ExitHandler.__init__ depth exit_op
  | NewParallelFor code loop_args => ParallelFor.__init__ code loop_args
  | NewParallelism parallelism => Parallelism.__init__ parallelism
  end.

(** [try: m finally: f] *)
Definition finally (m f : M unit) : M unit :=
  λ st, match m st with
        | (Ok _, st') => f st'
        | (Raise e, st') =>
            match f st' with
            | (Ok _, st'') => (Raise e, st'')
            | (Raise e', st'') => (Raise e', st'')
            end
        end.

(** The value that the entry returns is not bound by these statements, so
    the entry of [OpsGroup] stands for that of [ParallelFor] too, which only
    returns another value. *)
Fixpoint run (depth : nat) (re_match : string → string → Result bool) (s : stmt)
    : M unit :=
  match s with
  | With c body =>
      mgr ← eval_ctor depth c;
      __enter__ re_match mgr;;
      finally
        ((fix run_block (l : list stmt) : M unit :=
            match l with
            | [] => mret tt
            | s' :: l' => run depth re_match s';; run_block l'
            end) body)
        (__exit__ mgr)
  end.

Definition run_block (depth : nat) (re_match : string → string → Result bool)
    : list stmt → M unit :=
  fix run_block (l : list stmt) : M unit :=
    match l with
    | [] => mret tt
    | s' :: l' => run depth re_match s';; run_block l'
    end.

(** The stack and the counter of the active context, if there is one. *)
Definition stack_of (st : State) : option (list nat) :=
  Pipeline.stack <$> default_pipeline st.
Definition counter_of (st : State) : option N :=
  Pipeline.group_id <$> default_pipeline st.


(** ** The tree *)

Definition children (h : gmap nat OpsGroup) (g : nat) : list nat :=
  match h !! g with
  | Some o => groups o
  | None => []
  end.

Inductive reachable (h : gmap nat OpsGroup) : nat → nat → Prop :=
| reachable_refl g : reachable h g g
| reachable_step g c d : c ∈ children h g → reachable h c d → reachable h g d.

(** The groups form a finite tree-like structure: every child is an object and
    lies strictly lower than its parent. *)
Definition ranked (rank : nat → nat) (h : gmap nat OpsGroup) : Prop :=
  map_Forall (λ g o, Forall (λ c, is_Some (h !! c) ∧ rank c < rank g) (groups o)) h.

(** The attribute values of [g], read in a state. *)
Definition attr {A} (f : OpsGroup → A) (st : State) (g : nat) : option A :=
  f <$> group_heap st !! g.

(** What the recursion lookup takes for a match at a group. *)
Definition is_match (h : gmap nat OpsGroup) (kind prefix : string) (g : nat) : bool :=
  match h !! g with
  | Some o =>
      bool_decide (type o = kind) &&
      match name o with
      | Some n => literal_digits_match prefix n
      | None => false
      end
  | None => false
  end.

(** The lookup meets objects only, and names where it reads them. *)
Definition lookup_safe (h : gmap nat OpsGroup) (kind : string) (l : list nat) : Prop :=
  Forall (λ g, ∃ o, h !! g = Some o ∧ (type o = kind → is_Some (name o))) l.

(** The top of the stack, if any, is an object. *)
Definition top_alive (st : State) : Prop :=
  ∀ p top, default_pipeline st = Some p → last (Pipeline.stack p) = Some top →
           is_Some (group_heap st !! top).

(** ** What scoped entry leaves behind *)

(** The prefix that [name_pattern] puts before the digits. *)
Definition name_prefix (group_type name : string) : string :=
  replace "_" "-" (group_type +:+ "-" +:+ name +:+ "-").

(** The name [_make_name_unique] gives to [o] with the group id [id]. *)
Definition minted_name (o : OpsGroup) (id : N) : string :=
  replace "_" "-"
    (type o +:+ "-" +:+ (match name o with None => "" | Some n => n +:+ "-" end)
     +:+ pretty id).

(** The entering object after the lookup returned [r]. *)
Definition entered (r : option nat) (id : N) (o : OpsGroup) : OpsGroup :=
  match r with
  | Some m => set_recursive_ref (Some m) o
  | None => set_name (Some (minted_name o id)) (set_recursive_ref None o)
  end.

(** The groups after [push_ops_group group] on the stack [stack]. *)
Definition push_heap (stack : list nat) (group : nat) (h : gmap nat OpsGroup)
    : gmap nat OpsGroup :=
  match last stack with
  | Some top =>
      match h !! top with
      | Some t => <[top := set_groups (groups t ++ [group]) t]> h
      | None => h
      end
  | None => h
  end.

(** The context after an entry for which the lookup returned [r]. *)
Definition entered_pipeline (r : option nat) (self : nat) (p : Pipeline.t) : Pipeline.t :=
  Pipeline.mk (Pipeline.groups p ++ [self]) (Pipeline.stack p ++ [self])
              (match r with
               | Some _ => Pipeline.group_id p
               | None => (Pipeline.group_id p + 1)%N
               end).

Definition entered_state (r : option nat) (self : nat) (o : OpsGroup) (p : Pipeline.t)
    (st : State) : State :=
  mkState
    (push_heap (Pipeline.stack p) self
       (<[self := entered r (Pipeline.group_id p + 1)%N o]> (group_heap st)))
    (op_heap st)
    (Some (entered_pipeline r self p)).

(** [m] leaves the attribute [f] of every group as it is, whatever its outcome. *)
Definition keeps_attr {B A} (f : OpsGroup → B) (m : M A) : Prop :=
  ∀ st g, attr f (m st).2 g = attr f st g.

(** The loop-argument handle that [ParallelFor.__init__] stores. *)
Definition loop_handle (code : string) (v : loop_input) : loop_input :=
  if isinstance_PipelineParam v then from_pipeline_param v
  else if isinstance_LoopArguments v then v
  else LoopArguments_new v code.

(** ** Removal of a task *)

(** The object [o] after [k] calls of [ops.remove(op)]. *)
Definition removed (op k : nat) (o : OpsGroup) : OpsGroup :=
  set_ops (Nat.iter k (list_remove op) (ops o)) o.

(** The groups [h'] are the groups [h] after [V g] removals of [op] at each
    group [g]. *)
Definition removal (op : nat) (V : nat → nat) (h h' : gmap nat OpsGroup) : Prop :=
  ∀ g, h' !! g = removed op (V g) <$> h !! g.

(** The call [run self] returns, having removed [op] at least once at exactly
    the groups reachable from [self], and nothing else has changed. *)
Definition removes (op : nat) (run : nat → M unit) (st : State) (self : nat) : Prop :=
  ∃ V st', run self st = (Ok tt, st')
           ∧ op_heap st' = op_heap st
           ∧ default_pipeline st' = default_pipeline st
           ∧ removal op V (group_heap st) (group_heap st')
           ∧ ∀ g, 1 ≤ V g ↔ reachable (group_heap st) self g.

(** ** Effects on the context *)

(** [m] leaves the context as it is, whatever its outcome. *)
Definition same_ctx {A} (m : M A) : Prop :=
  ∀ st, default_pipeline (m st).2 = default_pipeline st.

(** [m] leaves the store as it is, whatever its outcome. *)
Definition same_state {A} (m : M A) : Prop :=
  ∀ st, (m st).2 = st.

(** [m] leaves the stack as it is, whatever its outcome. *)
Definition keeps_stack {A} (m : M A) : Prop :=
  ∀ st, stack_of (m st).2 = stack_of st.



(** ** Concrete stores *)

Definition empty_state : State := mkState ∅ ∅ None.

(** A build in progress with nothing open yet: two anonymous condition groups
    1 and 2 and a graph group 3 wait to be entered; task 7 has no dependents. *)
Definition fresh_build : State :=
  mkState
    (<[1 := mkOpsGroup "condition" [] [] None [] None None None None None]>
     (<[2 := mkOpsGroup "condition" [] [] None [] None None None None None]>
      (<[3 := mkOpsGroup "graph" [] [] (Some "flip_component") [] None None None None None]>
       ∅)))
    {[7 := mkContainerOp [] false]}
    (Some (Pipeline.mk [] [] 0)).

(** [with g1: (with g3: pass)], then [with g2: pass] *)
Definition nested_scopes : list stmt :=
  [With (Existing 1) [With (Existing 3) []]; With (Existing 2) []].

(** A graph component calling itself: group 1 is open under the name it was
    given at its entry, and group 2 is about to be entered for the inner call. *)
Definition recursive_call : State :=
  mkState
    (<[1 := mkOpsGroup "graph" [] [] (Some "graph-flip-component-1") [] None None None None None]>
     (<[2 := mkOpsGroup "graph" [] [] (Some "flip_component") [] None None None None None]>
      ∅))
    ∅
    (Some (Pipeline.mk [1] [1] 1)).

(** A tree under the root 0: the branch 1 → 2 holds task 7 at its deepest
    group, and the sibling branch 4 → 5 does not hold it.  The root holds task
    7 as well, above the branch. *)
Definition deep_tree : State :=
  mkState
    (<[0 := mkOpsGroup "pipeline" [7; 8] [1; 4] (Some "demo") [] None None None None None]>
     (<[1 := mkOpsGroup "condition" [8] [2] (Some "condition-1") [] None None None None None]>
      (<[2 := mkOpsGroup "for_loop" [7; 9] [] (Some "for-loop-for-loop-ab12-2") [] None None None
                         None None]>
       (<[4 := mkOpsGroup "condition" [8; 9] [5] (Some "condition-3") [] None None None None None]>
        (<[5 := mkOpsGroup "graph" [9] [] (Some "graph-g-4") [] None None None None None]>
         ∅)))))
    (<[7 := mkContainerOp [] false]> (<[8 := mkContainerOp [] false]>
      (<[9 := mkContainerOp ["op8"] false]> ∅)))
    (Some (Pipeline.mk [0; 1; 2; 4; 5] [0] 4)).

Definition deep_tree_rank (g : nat) : nat := 10 - g.






(** No build in progress; task 7 already has a dependent. *)
Definition no_context_state : State :=
  mkState ∅ {[7 := mkContainerOp ["upstream"] false]} None.

(** ** Relations between the store before and after a call *)

(** [m] takes every store to one that [R] relates to it, whatever its outcome. *)
Definition keeps (R : State → State → Prop) {A} (m : M A) : Prop :=
  ∀ st, R st (m st).2.

(** [o'] is [o] with occurrences of [op] dropped from its task list, and
    nothing else changed. *)
Definition dropped (op : nat) (o o' : OpsGroup) : Prop :=
  set_ops (ops o) o' = o
  ∧ ops o' `sublist_of` ops o
  ∧ filter (λ x, x ≠ op) (ops o') = filter (λ x, x ≠ op) (ops o).

(** The stores differ at most by occurrences of [op] dropped from task lists:
    the same objects exist, and tasks and context are the same. *)
Definition only_removes (op : nat) (st st' : State) : Prop :=
  op_heap st' = op_heap st
  ∧ default_pipeline st' = default_pipeline st
  ∧ ∀ g, option_Forall2 (dropped op) (group_heap st !! g) (group_heap st' !! g).

(** [o'] is [o] up to its name, its recursion reference and its children. *)
Definition same_payload (o o' : OpsGroup) : Prop :=
  type o' = type o ∧ ops o' = ops o ∧ dependencies o' = dependencies o
  ∧ loop_args o' = loop_args o ∧ parallelism o' = parallelism o
  ∧ exit_op o' = exit_op o
  ∧ items_is_pipeline_param o' = items_is_pipeline_param o.

(** The same objects exist, the tasks are the same, and every group has its
    kind, its task list and its payload. *)
Definition same_tasks (st st' : State) : Prop :=
  op_heap st' = op_heap st
  ∧ ∀ g, option_Forall2 same_payload (group_heap st !! g) (group_heap st' !! g).

Fixpoint no_underscore (s : string) : bool :=
  match s with
  | EmptyString => true
  | String c s' => negb (Ascii.eqb c "_") && no_underscore s'
  end.

(** A group entered inside its own scope: group 1 is its own child. *)
Definition self_nested : State :=
  mkState
    (<[1 := mkOpsGroup "graph" [7] [1] (Some "graph-g-1") [] None None None None None]> ∅)
    {[7 := mkContainerOp [] false]}
    (Some (Pipeline.mk [1; 1] [1; 1] 1)).

(** A registered group of another kind that has no name yet stands before the
    open graph group of the recursive call. *)
Definition mixed_registry : State :=
  mkState
    (<[0 := mkOpsGroup "pipeline" [] [1] None [] None None None None None]>
     (<[1 := mkOpsGroup "graph" [] [] (Some "graph-flip-component-1") [] None None None None None]>
      (<[2 := mkOpsGroup "graph" [] [] (Some "flip_component") [] None None None None None]>
       (<[3 := mkOpsGroup "graph" [] [] None [] None None None None None]>
        ∅))))
    ∅
    (Some (Pipeline.mk [0; 1] [0; 1] 1)).

(** The store [st] with the registry cut down to the groups of kind [kind]. *)
Definition registry_of_kind (kind : string) (st : State) : State :=
  mkState (group_heap st) (op_heap st)
    ((λ p, Pipeline.mk
             (filter (λ g, attr type st g = Some kind) (Pipeline.groups p))
             (Pipeline.stack p) (Pipeline.group_id p)) <$> default_pipeline st).

(** A registered graph group that has no name stands before the open one. *)
Definition unnamed_registered : State :=
  mkState
    (<[1 := mkOpsGroup "graph" [] [] (Some "graph-flip-component-1") [] None None None None None]>
     (<[2 := mkOpsGroup "graph" [] [] (Some "flip_component") [] None None None None None]>
      (<[3 := mkOpsGroup "graph" [] [] None [] None None None None None]>
       ∅)))
    ∅
    (Some (Pipeline.mk [3; 1] [3; 1] 1)).

(** * Proofs *)

(** ** Running a method *)

Lemma bind_run {A B} (m : M A) (k : A → M B) st :
  (m ≫= k) st =
  match m st with
  | (Ok a, st') => k a st'
  | (Raise e, st') => (Raise e, st')
  end.
Proof. reflexivity. Qed.

Lemma ret_run {A} (a : A) (st : State) : (mret a : M A) st = (Ok a, st).
Proof. reflexivity. Qed.

Lemma bind_ok {A B} (m : M A) (k : A → M B) st a st' :
  m st = (Ok a, st') → (m ≫= k) st = k a st'.
Proof. intros H. by rewrite bind_run, H. Qed.

Lemma bind_raise {A B} (m : M A) (k : A → M B) st e st' :
  m st = (Raise e, st') → (m ≫= k) st = (Raise e, st').
Proof. intros H. by rewrite bind_run, H. Qed.

Lemma get_default_pipeline_run st :
  get_default_pipeline st = (Ok (default_pipeline st), st).
Proof. reflexivity. Qed.

Lemma get_group_ok g o st :
  group_heap st !! g = Some o → get_group g st = (Ok o, st).
Proof. intros H. unfold get_group. by rewrite H. Qed.

Lemma update_group_ok g f o st :
  group_heap st !! g = Some o →
  update_group g f st =
  (Ok tt, mkState (<[g := f o]> (group_heap st)) (op_heap st) (default_pipeline st)).
Proof. intros H. unfold update_group. by rewrite H. Qed.

Lemma get_op_ok x c st :
  op_heap st !! x = Some c → get_op x st = (Ok c, st).
Proof. intros H. unfold get_op. by rewrite H. Qed.

Lemma update_op_ok x f c st :
  op_heap st !! x = Some c →
  update_op x f st =
  (Ok tt, mkState (group_heap st) (<[x := f c]> (op_heap st)) (default_pipeline st)).
Proof. intros H. unfold update_op. by rewrite H. Qed.

Lemma fresh_group_None st : group_heap st !! fresh (dom (group_heap st)) = None.
Proof. apply not_elem_of_dom, is_fresh. Qed.

Lemma init_run group_type n st :
  __init__ group_type n st =
  (Ok (fresh (dom (group_heap st))),
   mkState (<[fresh (dom (group_heap st)) :=
              mkOpsGroup group_type [] [] n [] None None None None None]> (group_heap st))
           (op_heap st) (default_pipeline st)).
Proof. reflexivity. Qed.

(** ** Parallelism-Limit *)

(** What the constructor does with each bound: a negative bound fails with
    [InvalidParallelismError]; an absent bound and the bound 0 both leave the
    bound unset; a positive bound, 3 among them, is stored. *)
Lemma parallelism_init_bound (st : State) :
  let self := fresh (dom (group_heap st)) in
  (∀ n : positive, ∃ st',
      Parallelism.__init__ (Some (Z.neg n)) st = (Raise InvalidParallelismError, st'))
  ∧ (∃ st', Parallelism.__init__ None st = (Ok self, st')
            ∧ attr parallelism st' self = Some None)
  ∧ (∃ st', Parallelism.__init__ (Some 0%Z) st = (Ok self, st')
            ∧ attr parallelism st' self = Some None)
  ∧ (∀ n : positive, ∃ st',
      Parallelism.__init__ (Some (Z.pos n)) st = (Ok self, st')
      ∧ attr parallelism st' self = Some (Some (Z.pos n)))
  ∧ (∃ st', Parallelism.__init__ (Some 3%Z) st = (Ok self, st')
            ∧ attr parallelism st' self = Some (Some 3%Z)).
Proof.
  intros self.
  assert (Hpos : ∀ n : positive, ∃ st',
      Parallelism.__init__ (Some (Z.pos n)) st = (Ok self, st')
      ∧ attr parallelism st' self = Some (Some (Z.pos n))).
  { intros n. unfold Parallelism.__init__.
    rewrite (bind_ok _ _ _ _ _ (init_run _ _ _)).
    rewrite bool_decide_true by lia. rewrite bool_decide_true by lia.
    erewrite bind_ok; [|apply update_group_ok; simpl; apply lookup_insert_eq].
    eexists; split; [reflexivity|].
    unfold attr; simpl. by rewrite lookup_insert_eq. }
  split_and!.
  - intros n. unfold Parallelism.__init__.
    rewrite (bind_ok _ _ _ _ _ (init_run _ _ _)).
    rewrite bool_decide_true by lia. rewrite bool_decide_false by lia.
    eexists; reflexivity.
  - unfold Parallelism.__init__.
    rewrite (bind_ok _ _ _ _ _ (init_run _ _ _)).
    eexists; split; [reflexivity|].
    unfold attr; simpl. by rewrite lookup_insert_eq.
  - unfold Parallelism.__init__.
    rewrite (bind_ok _ _ _ _ _ (init_run _ _ _)).
    rewrite bool_decide_false by lia.
    eexists; split; [reflexivity|].
    unfold attr; simpl. by rewrite lookup_insert_eq.
  - exact Hpos.
  - exact (Hpos 3%positive).
Qed.

(** C5 at the bound 0: the construction does not fail with
    [InvalidParallelismError]; the truth test on the bound skips the assertion
    that the bound is positive, and the construction returns a group whose
    bound is unset. *)
Lemma parallelism_zero_returns :
  (Parallelism.__init__ (Some 0%Z) empty_state).1 = Ok 0
  ∧ attr parallelism (Parallelism.__init__ (Some 0%Z) empty_state).2 0 = Some None
  ∧ (Parallelism.__init__ (Some 0%Z) empty_state).1 ≠ Raise InvalidParallelismError.
Proof. vm_compute. split_and!; [reflexivity|reflexivity|discriminate]. Qed.

(** ** Exit-Handler: the rejected construction *)

(** C4: an exit-handler construction whose designated task has a dependent
    fails with [InvalidExitOpError]; the tasks and the context are as before,
    every group is as before, and the store has gained only the object under
    construction, which nothing refers to. *)
Theorem exit_handler_rejects_dependents depth exit_op c st :
  op_heap st !! exit_op = Some c →
  dependent_names c ≠ [] →
  ∃ st', ExitHandler.__init__ depth exit_op st = (Raise InvalidExitOpError, st')
         ∧ op_heap st' = op_heap st
         ∧ default_pipeline st' = default_pipeline st
         ∧ (∀ g o, group_heap st !! g = Some o → group_heap st' !! g = Some o)
         ∧ group_heap st' =
             <[fresh (dom (group_heap st)) :=
                 mkOpsGroup "exit_handler" [] [] None [] None None None None None]>
               (group_heap st).
Proof.
  intros Hop Hdep. unfold ExitHandler.__init__.
  rewrite (bind_ok _ _ _ _ _ (init_run _ _ _)).
  erewrite bind_ok; [|by apply get_op_ok].
  destruct (dependent_names c) as [|d ds]; [done|].
  eexists; split; [reflexivity|]. simpl. split_and!; try done.
  intros g o Hg. rewrite lookup_insert_ne; [done|].
  intros <-. by rewrite fresh_group_None in Hg.
Qed.

Lemma exit_handler_rejects_dependents_witness :
  ∃ st', ExitHandler.__init__ 5 7 no_context_state = (Raise InvalidExitOpError, st')
         ∧ op_heap st' = op_heap no_context_state
         ∧ default_pipeline st' = default_pipeline no_context_state
         ∧ (∀ g o, group_heap no_context_state !! g = Some o → group_heap st' !! g = Some o)
         ∧ group_heap st' =
             <[fresh (dom (group_heap no_context_state)) :=
                 mkOpsGroup "exit_handler" [] [] None [] None None None None None]>
               (group_heap no_context_state).
Proof.
  apply (exit_handler_rejects_dependents 5 7 (mkContainerOp ["upstream"] false)).
  - reflexivity.
  - simpl. discriminate.
Defined.

(** ** No active context *)

(** C6, as the code has it: with no active context, scoped entry, name
    generation and the recursion lookup fail with [NoActiveContextError] and
    change nothing; the construction of an exit handler around a task that has
    a dependent fails with [InvalidExitOpError], the task being looked at
    before the context. *)
Theorem no_context_raises re_match self group_type n st :
  default_pipeline st = None →
  __enter__ re_match self st = (Raise NoActiveContextError, st)
  ∧ _make_name_unique self st = (Raise NoActiveContextError, st)
  ∧ _get_matching_opsgroup_already_in_pipeline re_match group_type n st
    = (Raise NoActiveContextError, st)
  ∧ ∀ depth exit_op c,
      op_heap st !! exit_op = Some c →
      dependent_names c ≠ [] →
      (ExitHandler.__init__ depth exit_op st).1 = Raise InvalidExitOpError.
Proof.
  intros Hp. split_and!.
  - unfold __enter__.
    rewrite (bind_ok _ _ _ _ _ (get_default_pipeline_run st)). by rewrite Hp.
  - unfold _make_name_unique.
    rewrite (bind_ok _ _ _ _ _ (get_default_pipeline_run st)). by rewrite Hp.
  - unfold _get_matching_opsgroup_already_in_pipeline.
    rewrite (bind_ok _ _ _ _ _ (get_default_pipeline_run st)). by rewrite Hp.
  - intros depth exit_op c Hop Hdep. unfold ExitHandler.__init__.
    rewrite (bind_ok _ _ _ _ _ (init_run _ _ _)).
    erewrite bind_ok; [|by apply get_op_ok].
    by destruct (dependent_names c).
Qed.

Lemma no_context_raises_witness :
  __enter__ py_re_match 0 empty_state = (Raise NoActiveContextError, empty_state)
  ∧ _make_name_unique 0 empty_state = (Raise NoActiveContextError, empty_state)
  ∧ _get_matching_opsgroup_already_in_pipeline py_re_match "graph" (Some "foo") empty_state
    = (Raise NoActiveContextError, empty_state).
Proof.
  destruct (no_context_raises py_re_match 0 "graph" (Some "foo") empty_state)
    as (H1 & H2 & H3 & _); [reflexivity|]. by split_and!.
Defined.

(** C6, as stated, fails at an exit-handler construction with no active
    context whose designated task has a dependent: the error is
    [InvalidExitOpError]. *)
Lemma exit_handler_without_context :
  default_pipeline no_context_state = None
  ∧ (ExitHandler.__init__ 5 7 no_context_state).1 = Raise InvalidExitOpError
  ∧ InvalidExitOpError ≠ NoActiveContextError.
Proof. vm_compute. split_and!; [reflexivity|reflexivity|discriminate]. Qed.

(** Scoped exit and the construction of an exit handler around a task without
    dependents call a method of the absent context. *)
Lemma exit_without_context self st :
  default_pipeline st = None → __exit__ self st = (Raise AttributeError, st).
Proof.
  intros Hp. unfold __exit__, pop_ops_group, the_pipeline.
  rewrite !bind_run. unfold get_default_pipeline. by rewrite Hp.
Qed.

Lemma exit_handler_init_without_context depth exit_op c st :
  default_pipeline st = None →
  op_heap st !! exit_op = Some c →
  dependent_names c = [] →
  ∃ st', ExitHandler.__init__ depth exit_op st = (Raise AttributeError, st').
Proof.
  intros Hp Hop Hdep. unfold ExitHandler.__init__.
  rewrite (bind_ok _ _ _ _ _ (init_run _ _ _)).
  erewrite bind_ok; [|by apply get_op_ok]. rewrite Hdep.
  unfold remove_op_from_groups, the_pipeline.
  rewrite !bind_run. unfold get_default_pipeline. simpl. rewrite Hp.
  eexists; reflexivity.
Qed.

(** ** Scoped entry *)

Lemma the_pipeline_ok p st :
  default_pipeline st = Some p → the_pipeline st = (Ok p, st).
Proof.
  intros Hp. unfold the_pipeline.
  rewrite (bind_ok _ _ _ _ _ (get_default_pipeline_run st)). by rewrite Hp.
Qed.

Lemma the_pipeline_none st :
  default_pipeline st = None → the_pipeline st = (Raise AttributeError, st).
Proof.
  intros Hp. unfold the_pipeline.
  rewrite (bind_ok _ _ _ _ _ (get_default_pipeline_run st)). by rewrite Hp.
Qed.

Lemma get_next_group_id_run p st :
  default_pipeline st = Some p →
  get_next_group_id st =
  (Ok (Pipeline.group_id p + 1)%N,
   mkState (group_heap st) (op_heap st)
           (Some (Pipeline.mk (Pipeline.groups p) (Pipeline.stack p)
                              (Pipeline.group_id p + 1)%N))).
Proof.
  intros Hp. unfold get_next_group_id.
  by rewrite (bind_ok _ _ _ _ _ (the_pipeline_ok _ _ Hp)).
Qed.

Lemma push_ops_group_run self p st :
  default_pipeline st = Some p →
  top_alive st →
  push_ops_group self st =
  (Ok tt, mkState (push_heap (Pipeline.stack p) self (group_heap st)) (op_heap st)
                  (Some (Pipeline.mk (Pipeline.groups p ++ [self])
                                     (Pipeline.stack p ++ [self])
                                     (Pipeline.group_id p)))).
Proof.
  intros Hp Htop. unfold push_ops_group, push_heap.
  rewrite (bind_ok _ _ _ _ _ (the_pipeline_ok _ _ Hp)).
  destruct (last (Pipeline.stack p)) as [top|] eqn:Hlast.
  - destruct (Htop p top Hp Hlast) as [t Ht].
    rewrite (bind_ok _ _ _ _ _ (update_group_ok _ _ _ _ Ht)). by rewrite Ht.
  - reflexivity.
Qed.

Lemma make_name_unique_run self o p st :
  default_pipeline st = Some p →
  group_heap st !! self = Some o →
  _make_name_unique self st =
  (Ok tt, mkState (<[self := set_name (Some (minted_name o (Pipeline.group_id p + 1)%N)) o]>
                     (group_heap st))
                  (op_heap st)
                  (Some (Pipeline.mk (Pipeline.groups p) (Pipeline.stack p)
                                     (Pipeline.group_id p + 1)%N))).
Proof.
  intros Hp Ho. unfold _make_name_unique.
  rewrite (bind_ok _ _ _ _ _ (get_default_pipeline_run st)). rewrite Hp.
  rewrite (bind_ok _ _ _ _ _ (get_group_ok _ _ _ Ho)).
  rewrite (bind_ok _ _ _ _ _ (get_next_group_id_run _ _ Hp)).
  erewrite bind_ok; [|by apply update_group_ok].
  erewrite update_group_ok; [|apply lookup_insert_eq].
  simpl. by rewrite insert_insert_eq.
Qed.

Lemma enter_run re_match self o p r st :
  default_pipeline st = Some p →
  group_heap st !! self = Some o →
  top_alive st →
  _get_matching_opsgroup_already_in_pipeline re_match (type o) (name o) st = (Ok r, st) →
  __enter__ re_match self st = (Ok self, entered_state r self o p st).
Proof.
  intros Hp Ho Htop Hlook. unfold __enter__.
  rewrite (bind_ok _ _ _ _ _ (get_default_pipeline_run st)). rewrite Hp.
  rewrite (bind_ok _ _ _ _ _ (get_group_ok _ _ _ Ho)).
  rewrite (bind_ok _ _ _ _ _ Hlook).
  rewrite (bind_ok _ _ _ _ _ (update_group_ok _ _ _ _ Ho)).
  set (st1 := mkState _ _ _).
  destruct r as [m|].
  - erewrite bind_ok; [|reflexivity].
    erewrite bind_ok; [reflexivity|].
    rewrite (push_ops_group_run self p st1); [done|done|].
    intros p' top Hp' Hlast. simpl in *. simplify_eq.
    destruct (decide (top = self)) as [->|Hne].
    + rewrite lookup_insert_eq. eauto.
    + rewrite lookup_insert_ne by done. eapply Htop; eauto.
  - assert (Hp1 : default_pipeline st1 = Some p) by done.
    assert (Ho1 : group_heap st1 !! self = Some (set_recursive_ref None o))
      by apply lookup_insert_eq.
    rewrite (bind_ok _ _ _ _ _ (make_name_unique_run self _ p st1 Hp1 Ho1)).
    erewrite bind_ok; [reflexivity|].
    erewrite push_ops_group_run; [|reflexivity|].
    + unfold entered_state, entered, entered_pipeline, st1. simpl.
      rewrite insert_insert_eq. reflexivity.
    + intros p' top Hp' Hlast. simpl in *. simplify_eq. simpl in Hlast.
      rewrite insert_insert_eq.
      destruct (decide (top = self)) as [->|Hne].
      * rewrite lookup_insert_eq. eauto.
      * rewrite lookup_insert_ne by done. eapply Htop; eauto.
Qed.

(** ** Names *)

Lemma string_app_cons c (s t : string) : String c s +:+ t = String c (s +:+ t).
Proof. reflexivity. Qed.

Lemma string_app_assoc (s1 s2 s3 : string) :
  s1 +:+ (s2 +:+ s3) = (s1 +:+ s2) +:+ s3.
Proof.
  induction s1 as [|c s1 IH]; [done|]. by rewrite !string_app_cons, IH.
Qed.

Lemma replace_app a b s1 s2 :
  replace a b (s1 +:+ s2) = replace a b s1 +:+ replace a b s2.
Proof.
  induction s1 as [|c s1 IH]; [done|].
  rewrite string_app_cons. simpl. by rewrite IH, string_app_cons.
Qed.

Lemma is_digit_not_underscore c : is_digit c = true → Ascii.eqb c "_" = false.
Proof.
  intros Hd. apply Ascii.eqb_neq. intros ->. vm_compute in Hd. discriminate.
Qed.

Lemma replace_digits s : all_digits s = true → replace "_" "-" s = s.
Proof.
  induction s as [|c s IH]; simpl; [done|].
  intros [Hc Hs]%andb_true_iff. by rewrite (is_digit_not_underscore c Hc), IH.
Qed.

Lemma pretty_N_char_digit x : is_digit (pretty_N_char x) = true.
Proof.
  destruct x as [|p]; [done|].
  do 4 (destruct p as [p|p|]; try done).
Qed.

Lemma pretty_N_go_digits x s :
  all_digits s = true → all_digits (pretty_N_go x s) = true.
Proof.
  revert s. induction (N.lt_wf_0 x) as [x _ IH]; intros s Hs.
  destruct (decide (x = 0%N)) as [->|Hx]; [by rewrite pretty_N_go_0|].
  rewrite pretty_N_go_step by lia. apply IH.
  - apply N.div_lt; lia.
  - simpl. by rewrite pretty_N_char_digit.
Qed.

Lemma pretty_N_digits (x : N) : all_digits (pretty x) = true.
Proof.
  unfold pretty, pretty_N. case_decide; [done|]. by apply pretty_N_go_digits.
Qed.

Lemma minted_name_eq o id :
  minted_name o id =
  replace "_" "-" (type o +:+ "-" +:+ match name o with None => "" | Some n => n +:+ "-" end)
  +:+ pretty id.
Proof.
  unfold minted_name.
  rewrite !replace_app, (replace_digits (pretty id)) by apply pretty_N_digits.
  destruct (name o); simpl; by rewrite ?replace_app, ?string_app_assoc.
Qed.

Lemma minted_name_inj o1 o2 id1 id2 :
  type o1 = type o2 → name o1 = name o2 →
  minted_name o1 id1 = minted_name o2 id2 → id1 = id2.
Proof.
  intros Ht Hn. rewrite !minted_name_eq, Ht, Hn.
  intros H%String.app_inj. by apply (inj pretty).
Qed.

(** ** The store after an entry *)

Lemma push_heap_attr {A} (f : OpsGroup → A) stack self h g :
  (∀ l t, f (set_groups l t) = f t) →
  f <$> push_heap stack self h !! g = f <$> h !! g.
Proof.
  intros Hf. unfold push_heap.
  destruct (last stack) as [top|]; [|done].
  destruct (h !! top) as [t|] eqn:Ht; [|done].
  destruct (decide (g = top)) as [->|Hne].
  - by rewrite lookup_insert_eq, Ht; simpl; rewrite Hf.
  - by rewrite lookup_insert_ne.
Qed.

Lemma entered_state_attr_self {A} (f : OpsGroup → A) r self o p st :
  (∀ l t, f (set_groups l t) = f t) →
  attr f (entered_state r self o p st) self
  = Some (f (entered r (Pipeline.group_id p + 1)%N o)).
Proof.
  intros Hf. unfold attr, entered_state; simpl.
  by rewrite push_heap_attr, lookup_insert_eq.
Qed.

Lemma entered_state_attr_other {A} (f : OpsGroup → A) r self o p st g :
  (∀ l t, f (set_groups l t) = f t) →
  g ≠ self →
  attr f (entered_state r self o p st) g = attr f st g.
Proof.
  intros Hf Hne. unfold attr, entered_state; simpl.
  by rewrite push_heap_attr, lookup_insert_ne.
Qed.

(** C10: a group entered without a base name gets no recursion reference,
    whatever groups are registered: the lookup returns none, [recursive_ref]
    stays unset, and the entry mints the name [<kind>-<id>] from the next
    group id, which no other group id yields. *)
Theorem enter_without_name re_match self o p st :
  default_pipeline st = Some p →
  group_heap st !! self = Some o →
  name o = None →
  top_alive st →
  _get_matching_opsgroup_already_in_pipeline re_match (type o) (name o) st = (Ok None, st)
  ∧ ∃ st', __enter__ re_match self st = (Ok self, st')
           ∧ attr recursive_ref st' self = Some None
           ∧ attr name st' self
             = Some (Some (replace "_" "-" (type o +:+ "-") +:+ pretty (Pipeline.group_id p + 1)%N))
           ∧ counter_of st' = Some (Pipeline.group_id p + 1)%N
           ∧ ∀ id, id ≠ (Pipeline.group_id p + 1)%N →
                   attr name st' self ≠ Some (Some (minted_name o id)).
Proof.
  intros Hp Ho Hn Htop.
  assert (Hlook : _get_matching_opsgroup_already_in_pipeline re_match (type o) (name o) st
                  = (Ok None, st)).
  { unfold _get_matching_opsgroup_already_in_pipeline.
    rewrite (bind_ok _ _ _ _ _ (get_default_pipeline_run st)). by rewrite Hp, Hn. }
  split; [done|].
  eexists. split; [by apply (enter_run re_match self o p None)|].
  rewrite !entered_state_attr_self by done. simpl.
  split_and!; try done.
  - rewrite minted_name_eq, Hn. reflexivity.
  - intros id Hid [=H]. apply Hid. symmetry. by apply (minted_name_inj o o).
Qed.

(** ** Effects on the context *)

Lemma bind_inv {A B} (m : M A) (k : A → M B) st r st' :
  (m ≫= k) st = (r, st') →
  (∃ a st1, m st = (Ok a, st1) ∧ k a st1 = (r, st'))
  ∨ (∃ e, m st = (Raise e, st') ∧ r = Raise e).
Proof.
  rewrite bind_run. destruct (m st) as [[a|e] st1]; intros H.
  - left. eauto.
  - right. exists e. by simplify_eq.
Qed.

Lemma bind_assoc {A B C} (m : M A) (k : A → M B) (k' : B → M C) st :
  ((m ≫= k) ≫= k') st = (m ≫= λ a, k a ≫= k') st.
Proof. rewrite !bind_run. by destruct (m st) as [[a|e] st1]. Qed.

Lemma bind_ext {A B} (m : M A) (k k' : A → M B) st :
  (∀ a st1, k a st1 = k' a st1) → (m ≫= k) st = (m ≫= k') st.
Proof. intros H. rewrite !bind_run. by destruct (m st) as [[a|e] st1]. Qed.

Lemma same_ctx_bind {A B} (m : M A) (k : A → M B) :
  same_ctx m → (∀ a, same_ctx (k a)) → same_ctx (m ≫= k).
Proof.
  intros Hm Hk st. specialize (Hm st). rewrite bind_run.
  destruct (m st) as [[a|e] st1]; simpl in *; [|done].
  by rewrite Hk.
Qed.

Lemma same_ctx_ret {A} (a : A) : same_ctx (mret a).
Proof. by intros st. Qed.

Lemma same_ctx_raise {A} e : same_ctx (@raise A e).
Proof. by intros st. Qed.

Lemma same_ctx_get_group g : same_ctx (get_group g).
Proof. intros st. unfold get_group. by destruct (group_heap st !! g). Qed.

Lemma same_ctx_update_group g f : same_ctx (update_group g f).
Proof. intros st. unfold update_group. by destruct (group_heap st !! g). Qed.

Lemma same_ctx_get_op x : same_ctx (get_op x).
Proof. intros st. unfold get_op. by destruct (op_heap st !! x). Qed.

Lemma same_ctx_update_op x f : same_ctx (update_op x f).
Proof. intros st. unfold update_op. by destruct (op_heap st !! x). Qed.

Lemma same_ctx_alloc_group o : same_ctx (alloc_group o).
Proof. by intros st. Qed.

Lemma same_ctx_get_default_pipeline : same_ctx get_default_pipeline.
Proof. by intros st. Qed.

Lemma same_ctx_the_pipeline : same_ctx the_pipeline.
Proof.
  apply same_ctx_bind; [apply same_ctx_get_default_pipeline|].
  intros [p|]; [apply same_ctx_ret|apply same_ctx_raise].
Qed.

Lemma same_ctx_for_each {A} (l : list A) body :
  (∀ x, same_ctx (body x)) → same_ctx (for_each l body).
Proof.
  intros Hb. induction l as [|x l IH]; simpl; [apply same_ctx_ret|].
  apply same_ctx_bind; [apply Hb|]. intros _. apply IH.
Qed.

Create HintDb ctx discriminated.
#[local] Hint Resolve same_ctx_ret same_ctx_raise same_ctx_get_group
  same_ctx_update_group same_ctx_get_op same_ctx_update_op same_ctx_alloc_group
  same_ctx_get_default_pipeline same_ctx_the_pipeline : ctx.

Ltac same_ctx_tac :=
  repeat first
    [ progress eauto with ctx
    | apply same_ctx_bind
    | apply same_ctx_for_each
    | match goal with
      | |- ∀ _, _ => intro
      | |- same_ctx (match ?x with _ => _ end) => destruct x
      | |- same_ctx (if ?b then _ else _) => destruct b
      end ].

Lemma same_ctx_remove_op_recursive depth self op :
  same_ctx (remove_op_recursive depth self op).
Proof.
  revert self. induction depth as [|d IH]; intros self; simpl; same_ctx_tac.
Qed.

Lemma same_ctx_remove_op_from_groups depth op :
  same_ctx (remove_op_from_groups depth op).
Proof.
  unfold remove_op_from_groups. same_ctx_tac. apply same_ctx_remove_op_recursive.
Qed.

Lemma same_ctx_init group_type n : same_ctx (__init__ group_type n).
Proof. apply same_ctx_alloc_group. Qed.

Lemma same_ctx_eval_ctor depth c : same_ctx (eval_ctor depth c).
Proof.
  destruct c; simpl.
  - apply same_ctx_ret.
  - apply same_ctx_init.
  - unfold ExitHandler.__init__.
    apply same_ctx_bind; [apply same_ctx_init|]. intros self.
    apply same_ctx_bind; [apply same_ctx_get_op|]. intros c.
    destruct (dependent_names c); [|apply same_ctx_raise].
    apply same_ctx_bind; [apply same_ctx_remove_op_from_groups|]. intros _.
    same_ctx_tac.
  - unfold ParallelFor.__init__.
    apply same_ctx_bind; [apply same_ctx_init|]. same_ctx_tac.
  - unfold Parallelism.__init__.
    apply same_ctx_bind; [apply same_ctx_init|]. same_ctx_tac.
Qed.


(** The recursion lookup reads only. *)
Lemma same_state_find_matching re_match group_type pattern l :
  same_state (find_matching re_match group_type pattern l).
Proof.
  induction l as [|g l IH]; intros st; simpl; [done|].
  rewrite bind_run. unfold get_group.
  destruct (group_heap st !! g) as [o|]; [|done].
  case_bool_decide; [|apply IH].
  destruct (name o) as [n|]; [|done].
  destruct (re_match pattern n) as [[|]|e]; [done|apply IH|done].
Qed.

Lemma same_state_lookup re_match group_type n :
  same_state (_get_matching_opsgroup_already_in_pipeline re_match group_type n).
Proof.
  intros st. unfold _get_matching_opsgroup_already_in_pipeline.
  rewrite bind_run. simpl.
  destruct (default_pipeline st) as [p|]; [|done].
  destruct n as [n|]; [|done]. apply same_state_find_matching.
Qed.

(** ** The stack *)

Lemma same_state_ctx {A} (m : M A) : same_state m → same_ctx m.
Proof. intros H st. by rewrite H. Qed.

Lemma same_ctx_keeps_stack {A} (m : M A) : same_ctx m → keeps_stack m.
Proof. intros H st. unfold stack_of. by rewrite H. Qed.

Lemma keeps_stack_bind {A B} (m : M A) (k : A → M B) :
  keeps_stack m → (∀ a, keeps_stack (k a)) → keeps_stack (m ≫= k).
Proof.
  intros Hm Hk st. specialize (Hm st). rewrite bind_run.
  destruct (m st) as [[a|e] st1]; simpl in *; [|done].
  by rewrite Hk.
Qed.

Lemma keeps_stack_get_next_group_id : keeps_stack get_next_group_id.
Proof.
  intros st. unfold stack_of.
  destruct (default_pipeline st) as [p|] eqn:Hp.
  - by rewrite (get_next_group_id_run p st Hp).
  - unfold get_next_group_id.
    rewrite (bind_raise _ _ _ _ _ (the_pipeline_none _ Hp)). simpl. by rewrite Hp.
Qed.

Lemma keeps_stack_make_name_unique self : keeps_stack (_make_name_unique self).
Proof.
  unfold _make_name_unique.
  apply keeps_stack_bind; [apply same_ctx_keeps_stack, same_ctx_get_default_pipeline|].
  intros [p|]; [|apply same_ctx_keeps_stack, same_ctx_raise].
  apply keeps_stack_bind; [apply same_ctx_keeps_stack, same_ctx_get_group|]. intros o.
  apply keeps_stack_bind; [apply keeps_stack_get_next_group_id|]. intros id.
  apply same_ctx_keeps_stack. same_ctx_tac.
Qed.

Lemma push_ops_group_stack group st r st' :
  push_ops_group group st = (r, st') →
  match r with
  | Ok _ => stack_of st' = (λ s, s ++ [group]) <$> stack_of st ∧ is_Some (stack_of st)
  | Raise _ => stack_of st' = stack_of st
  end.
Proof.
  unfold push_ops_group, stack_of.
  destruct (default_pipeline st) as [p|] eqn:Hp; simpl;
    [|rewrite (bind_raise _ _ _ _ _ (the_pipeline_none _ Hp)); intros; simplify_eq;
      by rewrite Hp].
  rewrite (bind_ok _ _ _ _ _ (the_pipeline_ok _ _ Hp)), bind_run.
  destruct (last (Pipeline.stack p)) as [top|].
  - pose proof (same_ctx_update_group top (λ t, set_groups (groups t ++ [group]) t) st) as Hs.
    destruct (update_group top _ st) as [[[]|e] st1]; simpl in *; intros H.
    + unfold set_pipeline in H. simplify_eq. simpl. eauto.
    + simplify_eq. by rewrite Hs, Hp.
  - unfold set_pipeline, mret, M_ret. intros; simplify_eq; simpl. eauto.
Qed.

Lemma enter_stack re_match self st r st' :
  __enter__ re_match self st = (r, st') →
  match r with
  | Ok _ => stack_of st' = (λ s, s ++ [self]) <$> stack_of st ∧ is_Some (stack_of st)
  | Raise _ => stack_of st' = stack_of st
  end.
Proof.
  unfold __enter__. rewrite (bind_ok _ _ _ _ _ (get_default_pipeline_run st)).
  destruct (default_pipeline st) as [p|] eqn:Hp;
    [|unfold raise; intros; by simplify_eq].
  set (pre := (o ← get_group self;
               r ← _get_matching_opsgroup_already_in_pipeline re_match (type o) (name o);
               update_group self (set_recursive_ref r);;
               match r with
               | None => _make_name_unique self
               | Some _ => mret tt
               end)).
  assert (Hpre : keeps_stack pre).
  { apply keeps_stack_bind; [apply same_ctx_keeps_stack, same_ctx_get_group|]. intros o.
    apply keeps_stack_bind;
      [apply same_ctx_keeps_stack, same_state_ctx, same_state_lookup|]. intros r0.
    apply keeps_stack_bind; [apply same_ctx_keeps_stack, same_ctx_update_group|]. intros _.
    destruct r0; [apply same_ctx_keeps_stack, same_ctx_ret|apply keeps_stack_make_name_unique]. }
  intros Hrun.
  assert (Hrun' : (pre ≫= λ _, push_ops_group self ≫= λ _, mret self) st = (r, st')).
  { rewrite <-Hrun. unfold pre.
    rewrite bind_assoc. apply bind_ext. intros o st1.
    rewrite bind_assoc. apply bind_ext. intros r0 st2.
    by rewrite bind_assoc. }
  clear Hrun. apply bind_inv in Hrun' as [(a & st1 & Hm & Hk)|(e & Hm & ->)].
  - pose proof (Hpre st) as Hs. rewrite Hm in Hs. simpl in Hs. rewrite <-Hs.
    apply bind_inv in Hk as [([] & st2 & Hpush & Hret)|(e & Hpush & ->)].
    + apply push_ops_group_stack in Hpush. rewrite ret_run in Hret. by simplify_eq.
    + by apply push_ops_group_stack in Hpush.
  - pose proof (Hpre st) as Hs. by rewrite Hm in Hs.
Qed.

Lemma exit_run self p st :
  default_pipeline st = Some p →
  Pipeline.stack p ≠ [] →
  __exit__ self st =
  (Ok tt, mkState (group_heap st) (op_heap st)
                  (Some (Pipeline.mk (Pipeline.groups p) (removelast (Pipeline.stack p))
                                     (Pipeline.group_id p)))).
Proof.
  intros Hp Hne. unfold __exit__, pop_ops_group.
  rewrite (bind_ok _ _ _ _ _ (the_pipeline_ok _ _ Hp)).
  by destruct (Pipeline.stack p).
Qed.

Lemma stmt_nested_ind (P : stmt → Prop) :
  (∀ c body, Forall P body → P (With c body)) → ∀ s, P s.
Proof.
  intros H. fix IH 1. intros [c body]. apply H.
  induction body as [|s l IHl]; constructor; [apply IH|apply IHl].
Qed.

Lemma run_unfold depth re_match c body :
  run depth re_match (With c body) =
  (mgr ← eval_ctor depth c;
   __enter__ re_match mgr;;
   finally (run_block depth re_match body) (__exit__ mgr)).
Proof. reflexivity. Qed.

Lemma keeps_stack_run_block depth re_match l :
  Forall (λ s, keeps_stack (run depth re_match s)) l →
  keeps_stack (run_block depth re_match l).
Proof.
  induction 1 as [|s l Hs _ IH]; simpl.
  - apply same_ctx_keeps_stack, same_ctx_ret.
  - apply keeps_stack_bind; [done|]. intros _. apply IH.
Qed.

Lemma scope_stack (body : M unit) self st0 st1 :
  keeps_stack body →
  stack_of st1 = (λ s, s ++ [self]) <$> stack_of st0 →
  is_Some (stack_of st0) →
  stack_of (finally body (__exit__ self) st1).2 = stack_of st0
  ∧ ∀ st2, body st1 = (Ok tt, st2) → (finally body (__exit__ self) st1).1 = Ok tt.
Proof.
  intros Hbody Hst1 [s Hs]. unfold finally.
  pose proof (Hbody st1) as Hb.
  destruct (body st1) as [rb st2]; simpl in Hb.
  rewrite Hst1, Hs in Hb. simpl in Hb.
  unfold stack_of in Hb.
  destruct (default_pipeline st2) as [p2|] eqn:Hp2; [|done]. simplify_eq/=.
  assert (Hne : Pipeline.stack p2 ≠ []) by (rewrite Hb; by destruct s).
  rewrite (exit_run self p2 st2 Hp2 Hne).
  assert (Hpop : stack_of (mkState (group_heap st2) (op_heap st2)
                  (Some (Pipeline.mk (Pipeline.groups p2) (removelast (Pipeline.stack p2))
                                     (Pipeline.group_id p2)))) = Some s).
  { unfold stack_of; simpl. by rewrite Hb, removelast_last. }
  rewrite Hs. destruct rb as [[]|e]; simpl; split; try done; by intros ? [=].
Qed.

Lemma keeps_stack_run depth re_match s : keeps_stack (run depth re_match s).
Proof.
  induction s as [c body IH] using stmt_nested_ind.
  apply keeps_stack_run_block in IH.
  rewrite run_unfold.
  apply keeps_stack_bind; [apply same_ctx_keeps_stack, same_ctx_eval_ctor|].
  intros mgr st. rewrite bind_run.
  destruct (__enter__ re_match mgr st) as [[x|e] st1] eqn:Henter;
    apply enter_stack in Henter; [|done].
  destruct Henter as [Hst1 Hsome].
  by apply scope_stack.
Qed.

(** C8: a scoped entry that returns has pushed exactly the entering group; a
    scoped exit on a non-empty stack pops exactly the top and raises nothing,
    whatever the body did; so every [with] statement, and every sequence of
    them, leaves the stack as it found it, on every path out, and an empty
    stack is empty again once the outermost scope has closed.  A scope whose
    body does nothing closes without error. *)
Theorem scopes_balance_stack depth re_match :
  (∀ self st x st',
      __enter__ re_match self st = (Ok x, st') →
      ∃ s, stack_of st = Some s ∧ stack_of st' = Some (s ++ [self]))
  ∧ (∀ self st p s top,
      default_pipeline st = Some p →
      Pipeline.stack p = s ++ [top] →
      ∃ st', __exit__ self st = (Ok tt, st')
             ∧ stack_of st' = Some s
             ∧ group_heap st' = group_heap st ∧ op_heap st' = op_heap st)
  ∧ (∀ s st, stack_of (run depth re_match s st).2 = stack_of st)
  ∧ (∀ l st, stack_of (run_block depth re_match l st).2 = stack_of st)
  ∧ (∀ l st, stack_of st = Some [] →
             stack_of (run_block depth re_match l st).2 = Some [])
  ∧ (∀ c st mgr st1 x st2,
      eval_ctor depth c st = (Ok mgr, st1) →
      __enter__ re_match mgr st1 = (Ok x, st2) →
      (run depth re_match (With c []) st).1 = Ok tt).
Proof.
  assert (Hblock : ∀ l, keeps_stack (run_block depth re_match l)).
  { intros l. apply keeps_stack_run_block, Forall_forall.
    intros s _. apply keeps_stack_run. }
  split_and!.
  - intros self st x st' Henter. apply enter_stack in Henter as [Hst' [s Hs]].
    exists s. split; [done|]. by rewrite Hst', Hs.
  - intros self st p s top Hp Hstack.
    assert (Hne : Pipeline.stack p ≠ []) by (rewrite Hstack; by destruct s).
    eexists. split; [by apply exit_run|].
    unfold stack_of; simpl. by rewrite Hstack, removelast_last.
  - intros s st. apply keeps_stack_run.
  - intros l st. apply Hblock.
  - intros l st Hst. by rewrite Hblock.
  - intros c st mgr st1 x st2 Hctor Henter.
    rewrite run_unfold, (bind_ok _ _ _ _ _ Hctor), (bind_ok _ _ _ _ _ Henter).
    apply enter_stack in Henter as [Hst2 Hsome].
    eapply scope_stack; [| exact Hst2 | exact Hsome | simpl; apply ret_run].
    apply same_ctx_keeps_stack, same_ctx_ret.
Qed.

Lemma scopes_balance_stack_witness :
  stack_of fresh_build = Some []
  ∧ stack_of (run_block 5 py_re_match nested_scopes fresh_build).2 = Some [].
Proof.
  split; [reflexivity|].
  apply (proj1 (proj2 (proj2 (proj2 (proj2 (scopes_balance_stack 5 py_re_match)))))).
  reflexivity.
Defined.

(** ** The group-id counter *)















(** ** The recursion lookup *)

Lemma strip_prefix_app p s : strip_prefix p (p +:+ s) = Some s.
Proof.
  induction p as [|c p IH]; [done|].
  rewrite string_app_cons. simpl. by rewrite Ascii.eqb_refl.
Qed.

Lemma strip_prefix_Some p s r : strip_prefix p s = Some r → s = p +:+ r.
Proof.
  revert s. induction p as [|c p IH]; intros s; simpl.
  - by intros [= ->].
  - destruct s as [|d s]; [done|].
    destruct (Ascii.eqb c d) eqn:Hcd; [|done].
    apply Ascii.eqb_eq in Hcd as ->. intros ->%IH. by rewrite string_app_cons.
Qed.

Lemma digits_then_end_intro ds tail :
  ds ≠ "" → all_digits ds = true → tail = "" ∨ tail = String line_feed "" →
  digits_then_end (ds +:+ tail) = true.
Proof.
  induction ds as [|c ds IH]; [done|]. intros _ [Hc Hds]%andb_true_iff Htail.
  rewrite string_app_cons. simpl. rewrite Hc. simpl.
  destruct ds as [|d ds].
  - destruct Htail as [->| ->]; [done|]. reflexivity.
  - specialize (IH ltac:(done) Hds Htail).
    rewrite string_app_cons in *.
    destruct (ds +:+ tail) as [|e rest] eqn:Hrest; [|done].
    simpl in Hds. apply andb_true_iff in Hds as [-> _]. apply orb_true_r.
Qed.

Lemma digits_then_end_elim s :
  digits_then_end s = true →
  ∃ ds tail, s = ds +:+ tail ∧ ds ≠ "" ∧ all_digits ds = true
             ∧ (tail = "" ∨ tail = String line_feed "").
Proof.
  induction s as [|c s IH]; [done|]. simpl.
  intros [Hc Hrest]%andb_true_iff.
  destruct s as [|d s].
  - exists (String c ""), "". simpl. rewrite Hc. eauto.
  - destruct s as [|e s].
    + apply orb_true_iff in Hrest as [Hd|Hd].
      * apply Ascii.eqb_eq in Hd as ->.
        exists (String c ""), (String line_feed ""). simpl. rewrite Hc. eauto.
      * exists (String c (String d "")), "". simpl. rewrite Hc, Hd. eauto.
    + destruct (IH Hrest) as (ds & tail & Heq & Hne & Hds & Htail).
      exists (String c ds), tail. rewrite string_app_cons, <-Heq. simpl.
      rewrite Hc, Hds. eauto.
Qed.

(** The reading of the pattern: the prefix, one or more digits, the end, with
    one final line feed let through. *)
Lemma literal_digits_match_spec lit n :
  literal_digits_match lit n = true ↔
  ∃ ds tail, n = lit +:+ ds +:+ tail ∧ ds ≠ "" ∧ all_digits ds = true
             ∧ (tail = "" ∨ tail = String line_feed "").
Proof.
  unfold literal_digits_match. split.
  - destruct (strip_prefix lit n) as [rest|] eqn:Hstrip; [|done].
    apply strip_prefix_Some in Hstrip as ->.
    intros (ds & tail & -> & H)%digits_then_end_elim. eauto.
  - intros (ds & tail & -> & Hne & Hds & Htail).
    rewrite strip_prefix_app. by apply digits_then_end_intro.
Qed.

Lemma parse_body_literal lit :
  regex_literal lit = true → parse_body (lit +:+ "[\d]+$") = Some lit.
Proof.
  induction lit as [|c lit IH]; [done|]. simpl.
  intros [Hc Hlit]%andb_true_iff. apply negb_true_iff in Hc.
  destruct (Ascii.eqb c "[") eqn:Heq.
  - apply Ascii.eqb_eq in Heq as ->. vm_compute in Hc. discriminate.
  - rewrite Hc, IH by done. reflexivity.
Qed.

(** [py_re_match] reads literal prefixes as required. *)
Lemma py_re_match_literal : literal_semantics py_re_match.
Proof.
  intros lit subject Hlit. unfold py_re_match.
  change ("^" +:+ lit +:+ "[\d]+$") with (String "^" (lit +:+ "[\d]+$")).
  unfold parse_pattern. by rewrite parse_body_literal.
Qed.

Lemma find_matching_run re_match kind lit l st :
  literal_semantics re_match →
  regex_literal lit = true →
  lookup_safe (group_heap st) kind l →
  find_matching re_match kind ("^" +:+ lit +:+ "[\d]+$") l st
  = (Ok (List.find (is_match (group_heap st) kind lit) l), st).
Proof.
  intros Hre Hlit. induction 1 as [|g l (o & Ho & Hnamed) _ IH]; simpl; [done|].
  rewrite (bind_ok _ _ _ _ _ (get_group_ok _ _ _ Ho)).
  unfold is_match at 1. rewrite Ho.
  case_bool_decide as Hty; simpl; [|apply IH].
  destruct (Hnamed Hty) as [n Hn]. rewrite Hn, (Hre lit n Hlit).
  destruct (literal_digits_match lit n); [done|apply IH].
Qed.

Lemma lookup_run re_match o p base st :
  literal_semantics re_match →
  default_pipeline st = Some p →
  regex_literal (name_prefix (type o) base) = true →
  lookup_safe (group_heap st) (type o) (Pipeline.groups p) →
  _get_matching_opsgroup_already_in_pipeline re_match (type o) (Some base) st
  = (Ok (List.find (is_match (group_heap st) (type o) (name_prefix (type o) base))
                   (Pipeline.groups p)), st).
Proof.
  intros Hre Hp Hlit Hsafe. unfold _get_matching_opsgroup_already_in_pipeline.
  rewrite (bind_ok _ _ _ _ _ (get_default_pipeline_run st)), Hp.
  by apply find_matching_run.
Qed.

Lemma find_first l (f : nat → bool) m :
  List.find f l = Some m →
  ∃ l1 l2, l = l1 ++ m :: l2 ∧ f m = true ∧ ∀ g, g ∈ l1 → f g = false.
Proof.
  induction l as [|x l IH]; [done|]. simpl.
  destruct (f x) eqn:Hx.
  - intros [= ->]. exists [], l. split_and!; [done|done|]. intros g Hg. by inversion Hg.
  - intros (l1 & l2 & -> & Hm & Hl1)%IH. exists (x :: l1), l2.
    split_and!; [done|done|]. intros g [->|Hg]%elem_of_cons; auto.
Qed.

Lemma find_none l (f : nat → bool) :
  List.find f l = None → ∀ g, g ∈ l → f g = false.
Proof.
  induction l as [|x l IH]; simpl; [intros _ g Hg; by inversion Hg|].
  destruct (f x) eqn:Hx; [done|].
  intros Hnone g [->|Hg]%elem_of_cons; auto.
Qed.

(** C1, as the code has it.  For a group entered with a base name, the lookup
    returns the first registered group of the entering group's kind whose name
    is [<kind>-<base_name>-] with every underscore turned into a hyphen,
    followed by one or more digits (and at most one final line feed), or none
    if there is no such group.  When it returns a group, the entry sets
    [recursive_ref] to it and mints no name: the entering group keeps its given
    name, every other group keeps its own, and the counter stays.  The kind and
    the base name are free of metacharacters, so that [re] reads them
    literally. *)
Theorem enter_recursive_match re_match self o p base st :
  literal_semantics re_match →
  default_pipeline st = Some p →
  group_heap st !! self = Some o →
  name o = Some base →
  regex_literal (name_prefix (type o) base) = true →
  lookup_safe (group_heap st) (type o) (Pipeline.groups p) →
  top_alive st →
  let prefix := replace "_" "-" (type o +:+ "-" +:+ base +:+ "-") in
  ∃ found,
    _get_matching_opsgroup_already_in_pipeline re_match (type o) (name o) st
      = (Ok found, st)
    ∧ (found = None →
       ∀ g, g ∈ Pipeline.groups p →
            is_match (group_heap st) (type o) prefix g = false)
    ∧ (∀ m, found = Some m →
         (∃ l1 l2 om ds tail,
             Pipeline.groups p = l1 ++ m :: l2
             ∧ (∀ g, g ∈ l1 → is_match (group_heap st) (type o) prefix g = false)
             ∧ group_heap st !! m = Some om
             ∧ type om = type o
             ∧ name om = Some (prefix +:+ ds +:+ tail)
             ∧ ds ≠ "" ∧ all_digits ds = true
             ∧ (tail = "" ∨ tail = String line_feed ""))
         ∧ ∃ st', __enter__ re_match self st = (Ok self, st')
                  ∧ attr recursive_ref st' self = Some (Some m)
                  ∧ attr name st' self = Some (Some base)
                  ∧ (∀ g, attr name st' g = attr name st g)
                  ∧ counter_of st' = Some (Pipeline.group_id p)).
Proof.
  intros Hre Hp Ho Hn Hlit Hsafe Htop prefix.
  pose proof (lookup_run re_match o p base st Hre Hp Hlit Hsafe) as Hlook.
  rewrite <-Hn in Hlook. fold prefix in Hlook.
  change (name_prefix (type o) base) with prefix in Hlook.
  eexists. split; [exact Hlook|]. split.
  - intros Hnone. by apply find_none.
  - intros m Hm. split.
    + apply find_first in Hm as (l1 & l2 & Hl & Hmatch & Hl1).
      unfold is_match in Hmatch.
      destruct (group_heap st !! m) as [om|] eqn:Hom; [|done].
      apply andb_true_iff in Hmatch as [Hty Hname].
      apply bool_decide_eq_true in Hty.
      destruct (name om) as [nm|] eqn:Hnm; [|done].
      apply literal_digits_match_spec in Hname as (ds & tail & -> & Hne & Hds & Htail).
      exists l1, l2, om, ds, tail. by rewrite Hnm.
    + rewrite Hm in Hlook.
      eexists. split; [by apply (enter_run re_match self o p (Some m))|].
      rewrite !entered_state_attr_self by done. simpl.
      split_and!; try done; [by rewrite Hn|].
      intros g. destruct (decide (g = self)) as [->|Hne].
      * rewrite entered_state_attr_self by done. simpl. unfold attr. by rewrite Ho.
      * by rewrite entered_state_attr_other.
Qed.

Lemma enter_recursive_match_witness :
  ∃ found,
    _get_matching_opsgroup_already_in_pipeline py_re_match "graph" (Some "flip_component")
      recursive_call = (Ok found, recursive_call)
    ∧ found = Some 1
    ∧ ∃ st', __enter__ py_re_match 2 recursive_call = (Ok 2, st')
             ∧ attr recursive_ref st' 2 = Some (Some 1)
             ∧ attr name st' 2 = Some (Some "flip_component")
             ∧ counter_of st' = Some 1%N.
Proof.
  destruct (enter_recursive_match py_re_match 2
              (mkOpsGroup "graph" [] [] (Some "flip_component") [] None None None None None)
              (Pipeline.mk [1] [1] 1) "flip_component" recursive_call)
    as (found & Hlook & _ & Hsome).
  - exact py_re_match_literal.
  - reflexivity.
  - reflexivity.
  - reflexivity.
  - reflexivity.
  - repeat constructor. eexists. split; [reflexivity|]. simpl. eauto.
  - intros p top [= <-] [= <-]. simpl. eauto.
  - exists found. split; [exact Hlook|].
    assert (Hfound : found = Some 1).
    { simpl in Hlook. vm_compute in Hlook. by injection Hlook as <-. }
    split; [exact Hfound|].
    destruct (Hsome 1 Hfound) as [_ (st' & Henter & Href & Hname & _ & Hcount)].
    exists st'. by split_and!.
Defined.

(** C1, as stated, fails for a base name with an underscore: the group found
    at the inner call of [flip_component] is the open group named
    [graph-flip-component-1], and that name is not [graph-flip_component-]
    followed by digits. *)
Lemma recursion_found_by_normalized_name :
  (__enter__ py_re_match 2 recursive_call).1 = Ok 2
  ∧ attr recursive_ref (__enter__ py_re_match 2 recursive_call).2 2 = Some (Some 1)
  ∧ attr name recursive_call 1 = Some (Some "graph-flip-component-1")
  ∧ spec_pattern_match "graph" "flip_component" "graph-flip-component-1" = false.
Proof. vm_compute. by split_and!. Qed.

(** ** Removal of a task *)

Lemma list_remove_notin x l : x ∉ l → list_remove x l = l.
Proof.
  induction l as [|y l IH]; [done|]. intros [Hne Hl]%not_elem_of_cons.
  simpl. rewrite decide_False by done. by rewrite IH.
Qed.

Lemma list_remove_NoDup x l : NoDup l → x ∉ list_remove x l.
Proof.
  induction 1 as [|y l Hy Hl IH]; simpl; [by apply not_elem_of_nil|].
  destruct (decide (x = y)) as [->|Hne]; [done|].
  by apply not_elem_of_cons.
Qed.

Lemma iter_list_remove_notin x k l : x ∉ l → Nat.iter k (list_remove x) l = l.
Proof. intros H. induction k as [|k IH]; simpl; [done|]. by rewrite IH, list_remove_notin. Qed.

Lemma iter_list_remove_NoDup x k l :
  NoDup l → 1 ≤ k → Nat.iter k (list_remove x) l = list_remove x l.
Proof.
  intros Hl Hk. destruct k as [|k]; [lia|].
  rewrite Nat.iter_succ_r.
  by apply iter_list_remove_notin, list_remove_NoDup.
Qed.

Lemma removed_0 op o : removed op 0 o = o.
Proof. by destruct o. Qed.

Lemma removed_removed op k1 k2 o :
  removed op k2 (removed op k1 o) = removed op (k2 + k1) o.
Proof. unfold removed. simpl. by rewrite Nat.iter_add. Qed.

Lemma removed_notin op k o : op ∉ ops o → removed op k o = o.
Proof. intros H. unfold removed. rewrite iter_list_remove_notin by done. by destruct o. Qed.

Lemma removal_refl op h : removal op (λ _, 0) h h.
Proof.
  intros g. destruct (h !! g) as [o|]; simpl; [|done]. by rewrite removed_0.
Qed.

Lemma removal_trans op V1 V2 h h1 h2 :
  removal op V1 h h1 → removal op V2 h1 h2 → removal op (λ g, V2 g + V1 g) h h2.
Proof.
  intros H1 H2 g. rewrite H2, H1.
  destruct (h !! g) as [o|]; simpl; [|done]. by rewrite removed_removed.
Qed.

Lemma removal_here op self o h :
  h !! self = Some o →
  removal op (λ g, if decide (g = self) then 1 else 0) h
          (if bool_decide (op ∈ ops o)
           then <[self := set_ops (list_remove op (ops o)) o]> h
           else h).
Proof.
  intros Ho g. destruct (decide (g = self)) as [->|Hne].
  - rewrite Ho. simpl. case_bool_decide as Hin.
    + by rewrite lookup_insert_eq.
    + rewrite Ho. f_equal. symmetry. change (removed op 1 o = o). by apply removed_notin.
  - assert (h !! g = removed op 0 <$> h !! g) as Hid.
    { destruct (h !! g); simpl; [|done]. by rewrite removed_0. }
    case_bool_decide; [by rewrite lookup_insert_ne|done].
Qed.

Lemma removal_children op V h h' g :
  removal op V h h' → children h' g = children h g.
Proof. intros H. unfold children. rewrite H. by destruct (h !! g). Qed.

Lemma removal_reachable op V h h' a b :
  removal op V h h' → reachable h' a b ↔ reachable h a b.
Proof.
  intros H. split; induction 1 as [|g c d Hc _ IH]; try apply reachable_refl.
  - eapply reachable_step; [|done]. by rewrite <-(removal_children op V h h').
  - eapply reachable_step; [|done]. by rewrite (removal_children op V h h').
Qed.

Lemma ranked_child rank h g o c :
  ranked rank h → h !! g = Some o → c ∈ groups o →
  is_Some (h !! c) ∧ rank c < rank g.
Proof.
  intros Hr Ho Hc. specialize (Hr g o Ho). simpl in Hr.
  by eapply Forall_forall in Hr.
Qed.

Lemma removal_ranked op V rank h h' :
  removal op V h h' → ranked rank h → ranked rank h'.
Proof.
  intros H Hr g o' Ho'. rewrite H in Ho'.
  destruct (h !! g) as [o|] eqn:Ho; [|done]. simpl in Ho'. simplify_eq.
  simpl. apply Forall_forall. intros c Hc.
  destruct (ranked_child rank h g o c Hr Ho Hc) as [[oc Hoc] Hlt].
  split; [|done]. rewrite H, Hoc. simpl. eauto.
Qed.

Lemma reachable_inv h a b :
  reachable h a b ↔ a = b ∨ ∃ c, c ∈ children h a ∧ reachable h c b.
Proof.
  split.
  - destruct 1 as [|g c d Hc Hcd]; [by left|right; eauto].
  - intros [->|(c & Hc & Hcd)]; [apply reachable_refl|by eapply reachable_step].
Qed.

Lemma remove_op_recursive_S d self op :
  remove_op_recursive (S d) self op =
  (o ← get_group self;
   (if bool_decide (op ∈ ops o)
    then update_group self (λ o, set_ops (list_remove op (ops o)) o)
    else mret tt);;
   o ← get_group self;
   for_each (groups o) (λ sub_group, remove_op_recursive d sub_group op)).
Proof. reflexivity. Qed.

Section removal.
Variable rank : nat → nat.
Variable op : nat.

Lemma for_each_remove (body : nat → M unit) d l :
  (∀ c st, ranked rank (group_heap st) → is_Some (group_heap st !! c) → rank c < d →
           removes op body st c) →
  ∀ st, ranked rank (group_heap st) →
        Forall (λ c, is_Some (group_heap st !! c) ∧ rank c < d) l →
        ∃ V st', for_each l body st = (Ok tt, st')
                 ∧ op_heap st' = op_heap st
                 ∧ default_pipeline st' = default_pipeline st
                 ∧ removal op V (group_heap st) (group_heap st')
                 ∧ ∀ g, 1 ≤ V g ↔ ∃ c, c ∈ l ∧ reachable (group_heap st) c g.
Proof.
  intros Hbody. induction l as [|c l IH]; intros st Hr Hl.
  - exists (λ _, 0), st. split_and!; try done; [apply removal_refl|].
    intros g. split; [lia|]. intros (c & Hc & _). by inversion Hc.
  - apply Forall_cons in Hl as [[Hc Hlt] Hl].
    destruct (Hbody c st Hr Hc Hlt) as (V1 & st1 & Hrun1 & Hop1 & Hp1 & Hrem1 & HV1).
    destruct (IH st1) as (V2 & st2 & Hrun2 & Hop2 & Hp2 & Hrem2 & HV2).
    { by eapply removal_ranked. }
    { eapply Forall_impl; [exact Hl|]. intros x [[ox Hx] Hxlt]. split; [|done].
      rewrite Hrem1, Hx. simpl. eauto. }
    exists (λ g, V2 g + V1 g), st2. split_and!.
    + simpl. by rewrite (bind_ok _ _ _ _ _ Hrun1).
    + congruence.
    + congruence.
    + by eapply removal_trans.
    + intros g. split.
      * intros Hg. destruct (decide (1 ≤ V1 g)) as [H1|H1].
        -- exists c. split; [by left|]. by apply HV1.
        -- assert (1 ≤ V2 g) as (x & Hx & Hreach)%HV2 by lia.
           exists x. split; [by right|].
           by apply (removal_reachable op V1 _ _ x g Hrem1).
      * intros (x & [->|Hx]%elem_of_cons & Hreach).
        -- apply HV1 in Hreach. lia.
        -- assert (1 ≤ V2 g); [|lia]. apply HV2. exists x. split; [done|].
           by apply (removal_reachable op V1 _ _ x g Hrem1).
Qed.

Lemma remove_op_recursive_run depth :
  ∀ self st, ranked rank (group_heap st) → is_Some (group_heap st !! self) →
             rank self < depth →
             removes op (λ self, remove_op_recursive depth self op) st self.
Proof.
  induction depth as [|d IHd]; intros self st Hr [o Ho] Hlt; [lia|].
  unfold removes. rewrite remove_op_recursive_S.
  rewrite (bind_ok _ _ _ _ _ (get_group_ok _ _ _ Ho)).
  pose proof (removal_here op self o (group_heap st) Ho) as Hrem0.
  set (st1 := mkState (if bool_decide (op ∈ ops o)
                       then <[self := set_ops (list_remove op (ops o)) o]> (group_heap st)
                       else group_heap st) (op_heap st) (default_pipeline st)).
  assert (Hstep : (if bool_decide (op ∈ ops o)
                   then update_group self (λ o, set_ops (list_remove op (ops o)) o)
                   else mret tt) st = (Ok tt, st1)).
  { unfold st1. case_bool_decide; [by rewrite (update_group_ok _ _ _ _ Ho)|].
    by destruct st. }
  rewrite (bind_ok _ _ _ _ _ Hstep).
  assert (Ho1 : group_heap st1 !! self = Some (removed op 1 o)).
  { simpl. rewrite Hrem0, Ho. simpl. by rewrite decide_True. }
  rewrite (bind_ok _ _ _ _ _ (get_group_ok _ _ _ Ho1)).
  assert (Hr1 : ranked rank (group_heap st1)) by (by eapply removal_ranked).
  destruct (for_each_remove (λ sub_group, remove_op_recursive d sub_group op) d
              (groups (removed op 1 o)) IHd st1 Hr1)
    as (V & st2 & Hrun & Hop & Hp & Hrem & HV).
  { apply Forall_forall. intros c Hc.
    destruct (ranked_child rank _ _ _ c Hr1 Ho1 Hc) as [Hsome Hclt].
    split; [done|lia]. }
  exists (λ g, V g + (if decide (g = self) then 1 else 0)), st2.
  split_and!; try done.
  - by eapply removal_trans.
  - intros g. rewrite reachable_inv. unfold children. rewrite Ho.
    change (groups (removed op 1 o)) with (groups o) in HV.
    split.
    + intros Hg. destruct (decide (g = self)) as [->|Hne]; [by left|right].
      assert (1 ≤ V g) as (c & Hc & Hreach)%HV by lia.
      exists c. split; [done|].
      by apply (removal_reachable op _ _ _ c g Hrem0).
    + intros [<-|(c & Hc & Hreach)].
      * rewrite decide_True by done. lia.
      * assert (1 ≤ V g); [|lia]. apply HV. exists c. split; [done|].
        by apply (removal_reachable op _ _ _ c g Hrem0).
Qed.
End removal.

(** C9: on a tree of groups no deeper than the recursion allows,
    [remove_op_recursive] returns, and it has called [ops.remove(op)] at least
    once at exactly the groups reachable from [self], [self] among them.  Nothing
    but [ops] lists changes; a group outside the subtree, or one whose list
    does not hold the task, is left as it was; a group of the subtree, however
    deep, whose list holds the task once no longer holds it, the rest of the
    list being as before. *)
Theorem remove_op_recursive_frame rank depth self op st :
  ranked rank (group_heap st) →
  is_Some (group_heap st !! self) →
  rank self < depth →
  ∃ st', remove_op_recursive depth self op st = (Ok tt, st')
         ∧ op_heap st' = op_heap st
         ∧ default_pipeline st' = default_pipeline st
         ∧ (∀ g, group_heap st !! g = None → group_heap st' !! g = None)
         ∧ (∀ g o, group_heap st !! g = Some o →
              ∃ k, group_heap st' !! g = Some (removed op k o)
                   ∧ (1 ≤ k ↔ reachable (group_heap st) self g))
         ∧ (∀ g, attr groups st' g = attr groups st g)
         ∧ (∀ g o, group_heap st !! g = Some o →
              ¬ reachable (group_heap st) self g ∨ op ∉ ops o →
              group_heap st' !! g = Some o)
         ∧ (∀ g o, group_heap st !! g = Some o →
              reachable (group_heap st) self g →
              NoDup (ops o) →
              group_heap st' !! g = Some (set_ops (list_remove op (ops o)) o)
              ∧ op ∉ list_remove op (ops o)).
Proof.
  intros Hr Hself Hlt.
  destruct (remove_op_recursive_run rank op depth self st Hr Hself Hlt)
    as (V & st' & Hrun & Hop & Hp & Hrem & HV).
  exists st'. split_and!; try done.
  - intros g Hg. by rewrite Hrem, Hg.
  - intros g o Ho. exists (V g). split; [by rewrite Hrem, Ho|apply HV].
  - intros g. unfold attr. rewrite Hrem. by destruct (group_heap st !! g).
  - intros g o Ho Hcase. rewrite Hrem, Ho. simpl. f_equal.
    destruct Hcase as [Hunreach|Hnotin].
    + assert (V g = 0) as ->; [|apply removed_0].
      destruct (decide (1 ≤ V g)) as [H1|H1]; [|lia]. by apply HV in H1.
    + by apply removed_notin.
  - intros g o Ho Hreach Hnd. split; [|by apply list_remove_NoDup].
    rewrite Hrem, Ho. simpl. f_equal. unfold removed.
    rewrite iter_list_remove_NoDup; [done|done|]. by apply HV.
Qed.

Lemma deep_tree_ranked : ranked deep_tree_rank (group_heap deep_tree).
Proof.
  apply map_Forall_to_list. vm_compute.
  repeat (constructor; simpl; repeat (constructor; [split; [eauto|lia]|])).
Qed.

Lemma reachable_rank rank h a b :
  ranked rank h → is_Some (h !! a) → reachable h a b → rank b ≤ rank a ∧ is_Some (h !! b).
Proof.
  intros Hr Ha Hreach. induction Hreach as [|g c d Hc _ IH]; [done|].
  unfold children in Hc. destruct Ha as [o Ho]. rewrite Ho in Hc.
  destruct (ranked_child rank h g o c Hr Ho Hc) as [Hsome Hlt].
  destruct (IH Hsome). split; [lia|done].
Qed.

Lemma remove_op_recursive_frame_witness :
  ∃ st', remove_op_recursive 20 1 7 deep_tree = (Ok tt, st')
         ∧ attr ops st' 2 = Some [9]
         ∧ attr ops st' 0 = Some [7; 8]
         ∧ group_heap st' !! 4 = group_heap deep_tree !! 4.
Proof.
  destruct (remove_op_recursive_frame deep_tree_rank 20 1 7 deep_tree)
    as (st' & Hrun & _ & _ & _ & _ & _ & Hframe & Hdeep).
  - exact deep_tree_ranked.
  - vm_compute. eauto.
  - vm_compute. lia.
  - exists st'. split; [exact Hrun|]. split_and!.
    + destruct (Hdeep 2 (mkOpsGroup "for_loop" [7; 9] [] (Some "for-loop-for-loop-ab12-2")
                           [] None None None None None)) as [H2 _].
      * reflexivity.
      * eapply reachable_step; [|apply reachable_refl]. vm_compute. by left.
      * simpl. apply (bool_decide_unpack _). vm_compute. exact I.
      * unfold attr. by rewrite H2.
    + unfold attr.
      rewrite (Hframe 0 (mkOpsGroup "pipeline" [7; 8] [1; 4] (Some "demo")
                           [] None None None None None)); [reflexivity|reflexivity|].
      left. intros Hreach.
      apply (reachable_rank deep_tree_rank) in Hreach as [Hle _].
      * vm_compute in Hle. lia.
      * exact deep_tree_ranked.
      * vm_compute. eauto.
    + rewrite (Hframe 4 (mkOpsGroup "condition" [8; 9] [5] (Some "condition-3")
                           [] None None None None None)); [reflexivity|reflexivity|].
      right. simpl. apply (bool_decide_unpack _). vm_compute. exact I.
Defined.

(** ** Exit-Handler: the accepted construction *)

Lemma blank_ranked rank h self o :
  ranked rank h → h !! self = None → groups o = [] → ranked rank (<[self := o]> h).
Proof.
  intros Hr Hself Hg g og Hog. simpl.
  destruct (decide (g = self)) as [->|Hne].
  - rewrite lookup_insert_eq in Hog. simplify_eq. rewrite Hg. constructor.
  - rewrite lookup_insert_ne in Hog by done.
    apply Forall_forall. intros c Hc.
    destruct (ranked_child rank h g og c Hr Hog Hc) as [[oc Hoc] Hlt].
    split; [|done].
    destruct (decide (c = self)) as [->|Hcne]; [congruence|].
    rewrite lookup_insert_ne by done. eauto.
Qed.

Lemma blank_reachable rank h self o r g :
  ranked rank h → h !! self = None → is_Some (h !! r) →
  reachable (<[self := o]> h) r g ↔ reachable h r g.
Proof.
  intros Hr Hself. 
  assert (Hch : ∀ a, is_Some (h !! a) → children (<[self := o]> h) a = children h a).
  { intros a [oa Ha]. unfold children.
    rewrite lookup_insert_ne; [done|]. intros ->. congruence. }
  assert (Halive : ∀ a c, is_Some (h !! a) → c ∈ children h a → is_Some (h !! c)).
  { intros a c [oa Ha] Hc. unfold children in Hc. rewrite Ha in Hc.
    by destruct (ranked_child rank h a oa c Hr Ha Hc). }
  intros Hsome. split; intros Hreach.
  - induction Hreach as [|a c d Hc _ IH]; [apply reachable_refl|].
    rewrite Hch in Hc by done.
    eapply reachable_step; [done|]. apply IH. by eapply Halive.
  - induction Hreach as [|a c d Hc _ IH]; [apply reachable_refl|].
    eapply reachable_step; [by rewrite Hch|]. apply IH. by eapply Halive.
Qed.

(** C3, as the code has it: the construction of an exit handler around a task
    without dependents returns a new group; [ops.remove] has been called at
    least once at exactly the groups reachable from a registered group, so the
    task is gone from every such list that held it once; the task's
    [is_exit_handler] flag is set; and the new group refers to the task by its
    [exit_op] attribute, its own task list being empty: the task is in no task
    list. *)
Theorem exit_handler_detaches rank depth exit_op c p st :
  default_pipeline st = Some p →
  op_heap st !! exit_op = Some c →
  dependent_names c = [] →
  ranked rank (group_heap st) →
  Forall (λ g, is_Some (group_heap st !! g) ∧ rank g < depth) (Pipeline.groups p) →
  let self := fresh (dom (group_heap st)) in
  let in_tree g := ∃ r, r ∈ Pipeline.groups p ∧ reachable (group_heap st) r g in
  ∃ st', ExitHandler.__init__ depth exit_op st = (Ok self, st')
         ∧ default_pipeline st' = Some p
         ∧ op_heap st' = <[exit_op := mkContainerOp [] true]> (op_heap st)
         ∧ group_heap st' !! self
           = Some (mkOpsGroup "exit_handler" [] [] None [] None None None (Some exit_op) None)
         ∧ (∀ g o, group_heap st !! g = Some o →
              ∃ k, group_heap st' !! g = Some (removed exit_op k o)
                   ∧ (1 ≤ k ↔ in_tree g))
         ∧ (∀ g o', group_heap st' !! g = Some o' →
              g = self
              ∨ (∃ o, group_heap st !! g = Some o ∧ NoDup (ops o) ∧ in_tree g) →
              exit_op ∉ ops o').
Proof.
  intros Hp Hop Hdep Hr Hroots self in_tree.
  pose proof (fresh_group_None st) as Hfresh. fold self in Hfresh.
  unfold ExitHandler.__init__.
  rewrite (bind_ok _ _ _ _ _ (init_run _ _ _)). fold self.
  set (blank := mkOpsGroup "exit_handler" [] [] None [] None None None None None).
  set (st1 := mkState (<[self := blank]> (group_heap st)) (op_heap st) (default_pipeline st)).
  assert (Hop1 : op_heap st1 !! exit_op = Some c) by done.
  rewrite (bind_ok _ _ _ _ _ (get_op_ok _ _ _ Hop1)), Hdep.
  assert (Hr1 : ranked rank (group_heap st1)) by (by apply blank_ranked).
  assert (Hp1 : default_pipeline st1 = Some p) by done.
  destruct (for_each_remove rank exit_op
              (λ group, remove_op_recursive depth group exit_op) depth (Pipeline.groups p)
              (remove_op_recursive_run rank exit_op depth) st1 Hr1)
    as (V & st2 & Hrun & Hop2 & Hp2 & Hrem & HV).
  { eapply Forall_impl; [exact Hroots|]. intros g [[o Ho] Hlt]. split; [|done].
    simpl. destruct (decide (g = self)) as [->|Hne]; [congruence|].
    rewrite lookup_insert_ne by done. eauto. }
  assert (Hremove : remove_op_from_groups depth exit_op st1 = (Ok tt, st2)).
  { unfold remove_op_from_groups. by rewrite (bind_ok _ _ _ _ _ (the_pipeline_ok _ _ Hp1)). }
  rewrite (bind_ok _ _ _ _ _ Hremove).
  assert (Hop2' : op_heap st2 !! exit_op = Some c) by (by rewrite Hop2).
  rewrite (bind_ok _ _ _ _ _ (update_op_ok _ _ _ _ Hop2')).
  assert (Hself2 : group_heap st2 !! self = Some blank).
  { rewrite Hrem. simpl. rewrite lookup_insert_eq. simpl. f_equal.
    apply removed_notin. simpl. apply not_elem_of_nil. }
  erewrite bind_ok; [|by apply update_group_ok].
  eexists. split; [reflexivity|]. simpl.
  assert (Hold : ∀ g o, group_heap st !! g = Some o →
            (<[self := set_exit_op (Some exit_op) blank]> (group_heap st2)) !! g
              = Some (removed exit_op (V g) o)
            ∧ (1 ≤ V g ↔ in_tree g)).
  { intros g o Ho.
    assert (g ≠ self) as Hne by (intros ->; congruence).
    split.
    - rewrite lookup_insert_ne by done. rewrite Hrem. simpl.
      by rewrite lookup_insert_ne, Ho.
    - assert (Halive : ∀ r, r ∈ Pipeline.groups p → is_Some (group_heap st !! r)).
      { intros r Hin. by destruct (proj1 (Forall_forall _ _) Hroots r Hin). }
      rewrite HV. unfold in_tree. split; intros (r & Hin & Hreach); exists r; (split; [done|]).
      + by apply (blank_reachable rank (group_heap st) self blank r g Hr Hfresh (Halive r Hin))
          in Hreach.
      + by apply (blank_reachable rank (group_heap st) self blank r g Hr Hfresh (Halive r Hin)). }
  split_and!.
  - by rewrite Hp2.
  - by rewrite Hop2, Hdep.
  - by rewrite lookup_insert_eq.
  - intros g o Ho. exists (V g). by apply Hold.
  - intros g o' Ho' [->|(o & Ho & Hnd & Hin)].
    + rewrite lookup_insert_eq in Ho'. simplify_eq. simpl. apply not_elem_of_nil.
    + destruct (Hold g o Ho) as [Hlook HVg]. rewrite Hlook in Ho'. simplify_eq.
      unfold removed. simpl.
      rewrite iter_list_remove_NoDup; [by apply list_remove_NoDup|done|by apply HVg].
Qed.

Lemma exit_handler_detaches_witness :
  ∃ st', ExitHandler.__init__ 20 7 deep_tree = (Ok (fresh (dom (group_heap deep_tree))), st')
         ∧ op_heap st' !! 7 = Some (mkContainerOp [] true)
         ∧ attr ops st' (fresh (dom (group_heap deep_tree))) = Some []
         ∧ attr exit_op st' (fresh (dom (group_heap deep_tree))) = Some (Some 7)
         ∧ ∀ o', group_heap st' !! 2 = Some o' → 7 ∉ ops o'.
Proof.
  destruct (exit_handler_detaches deep_tree_rank 20 7 (mkContainerOp [] false)
              (Pipeline.mk [0; 1; 2; 4; 5] [0] 4) deep_tree)
    as (st' & Hrun & _ & Hop & Hself & _ & Hgone).
  - reflexivity.
  - reflexivity.
  - reflexivity.
  - exact deep_tree_ranked.
  - vm_compute. repeat (constructor; [split; [eauto|lia]|]). constructor.
  - exists st'. split; [exact Hrun|]. split_and!.
    + rewrite Hop. apply lookup_insert_eq.
    + unfold attr. by rewrite Hself.
    + unfold attr. by rewrite Hself.
    + intros o' Ho'. apply (Hgone 2 o' Ho'). right.
      exists (mkOpsGroup "for_loop" [7; 9] [] (Some "for-loop-for-loop-ab12-2")
                         [] None None None None None).
      split_and!.
      * reflexivity.
      * simpl. apply (bool_decide_unpack _). vm_compute. exact I.
      * exists 2. split; [|apply reachable_refl].
        simpl. apply (bool_decide_unpack _). vm_compute. exact I.
Defined.

(** C3, as stated, fails at its last clause: after the construction the task
    is not in the exit handler's task list, which is empty; the handler holds
    it in [exit_op]. *)
Lemma exit_handler_task_list_is_empty :
  (ExitHandler.__init__ 20 7 deep_tree).1 = Ok 6
  ∧ attr ops (ExitHandler.__init__ 20 7 deep_tree).2 6 = Some []
  ∧ attr exit_op (ExitHandler.__init__ 20 7 deep_tree).2 6 = Some (Some 7).
Proof. vm_compute. by split_and!. Qed.

(** ** Parallel-For *)

Lemma keeps_attr_bind {B A C} (f : OpsGroup → B) (m : M A) (k : A → M C) :
  keeps_attr f m → (∀ a, keeps_attr f (k a)) → keeps_attr f (m ≫= k).
Proof.
  intros Hm Hk st g. specialize (Hm st g). rewrite bind_run.
  destruct (m st) as [[a|e] st1]; simpl in *; [|done].
  by rewrite Hk.
Qed.

Lemma keeps_attr_same_heap {B A} (f : OpsGroup → B) (m : M A) :
  (∀ st, group_heap (m st).2 = group_heap st) → keeps_attr f m.
Proof. intros H st g. unfold attr. by rewrite H. Qed.

Lemma keeps_attr_update_group {B} (f : OpsGroup → B) g F :
  (∀ o, f (F o) = f o) → keeps_attr f (update_group g F).
Proof.
  intros HF st g'. unfold update_group, attr.
  destruct (group_heap st !! g) as [o|] eqn:Ho; simpl; [|done].
  destruct (decide (g' = g)) as [->|Hne].
  - by rewrite lookup_insert_eq, Ho; simpl; rewrite HF.
  - by rewrite lookup_insert_ne.
Qed.

Lemma same_heap_the_pipeline st : group_heap (the_pipeline st).2 = group_heap st.
Proof. unfold the_pipeline. rewrite bind_run. simpl. by destruct (default_pipeline st). Qed.

Lemma keeps_attr_get_next_group_id {B} (f : OpsGroup → B) : keeps_attr f get_next_group_id.
Proof.
  apply keeps_attr_same_heap. intros st.
  destruct (default_pipeline st) as [p|] eqn:Hp.
  - by rewrite (get_next_group_id_run p st Hp).
  - unfold get_next_group_id. by rewrite (bind_raise _ _ _ _ _ (the_pipeline_none _ Hp)).
Qed.

Lemma keeps_attr_enter {B} (f : OpsGroup → B) re_match self :
  (∀ r o, f (set_recursive_ref r o) = f o) →
  (∀ n o, f (set_name n o) = f o) →
  (∀ l o, f (set_groups l o) = f o) →
  keeps_attr f (__enter__ re_match self).
Proof.
  intros Hf1 Hf2 Hf3. unfold __enter__.
  apply keeps_attr_bind; [by apply keeps_attr_same_heap|].
  intros [p|]; [|by apply keeps_attr_same_heap].
  apply keeps_attr_bind.
  { apply keeps_attr_same_heap. intros st. unfold get_group.
    by destruct (group_heap st !! self). }
  intros o. apply keeps_attr_bind.
  { apply keeps_attr_same_heap. intros st. by rewrite same_state_lookup. }
  intros r. apply keeps_attr_bind; [by apply keeps_attr_update_group|].
  intros _. apply keeps_attr_bind.
  { destruct r; [by apply keeps_attr_same_heap|].
    unfold _make_name_unique.
    apply keeps_attr_bind; [by apply keeps_attr_same_heap|].
    intros [p'|]; [|by apply keeps_attr_same_heap].
    apply keeps_attr_bind.
    { apply keeps_attr_same_heap. intros st. unfold get_group.
      by destruct (group_heap st !! self). }
    intros o'. apply keeps_attr_bind; [apply keeps_attr_get_next_group_id|].
    intros id. apply keeps_attr_bind; [by apply keeps_attr_update_group|].
    intros _. apply keeps_attr_update_group. intros o0. apply Hf2. }
  intros _. apply keeps_attr_bind; [|intros; by apply keeps_attr_same_heap].
  unfold push_ops_group.
  apply keeps_attr_bind; [apply keeps_attr_same_heap, same_heap_the_pipeline|].
  intros p'. apply keeps_attr_bind; [|intros; by apply keeps_attr_same_heap].
  destruct (last (Pipeline.stack p')); [by apply keeps_attr_update_group|].
  by apply keeps_attr_same_heap.
Qed.

Lemma parallel_for_init_run code v st :
  ParallelFor.__init__ code v st =
  (Ok (fresh (dom (group_heap st))),
   mkState (<[fresh (dom (group_heap st)) :=
              mkOpsGroup "for_loop" [] [] (Some ("for-loop-" +:+ code)) [] None
                         (Some (loop_handle code v)) None None
                         (Some (isinstance_PipelineParam v))]> (group_heap st))
           (op_heap st) (default_pipeline st)).
Proof.
  unfold ParallelFor.__init__.
  rewrite (bind_ok _ _ _ _ _ (init_run _ _ _)).
  erewrite bind_ok; [|apply update_group_ok; apply lookup_insert_eq].
  erewrite bind_ok; [|apply update_group_ok; apply lookup_insert_eq].
  rewrite ret_run. simpl. rewrite !insert_insert_eq.
  unfold loop_handle. by destruct v.
Qed.

(** C7: a Parallel-For group stores as its loop-argument handle the
    constructor's input wrapped as a placeholder when it is a parameter
    reference, wrapped as a value, with the loop's code, when it is a static
    collection, and as it is when it is wrapped already; scoped entry, when it
    returns, returns that handle and not the group, and it does return once the
    lookup does. *)
Theorem parallel_for_enter_returns_handle re_match code v st :
  let self := fresh (dom (group_heap st)) in
  ∃ st1, ParallelFor.__init__ code v st = (Ok self, st1)
         ∧ attr loop_args st1 self = Some (Some (loop_handle code v))
         ∧ (∀ param, v = PipelineParam param →
              loop_handle code v = Wrapped (LoopArgumentsOfParam param))
         ∧ (∀ items, v = ItemList items →
              loop_handle code v = Wrapped (LoopArgumentsOfItems items code))
         ∧ (∀ la, v = Wrapped la → loop_handle code v = v)
         ∧ (∀ r st2, ParallelFor.__enter__ re_match self st1 = (Ok r, st2) →
              r = Some (loop_handle code v))
         ∧ (∀ p found,
              default_pipeline st = Some p →
              top_alive st →
              _get_matching_opsgroup_already_in_pipeline re_match "for_loop"
                (Some ("for-loop-" +:+ code)) st1 = (Ok found, st1) →
              ∃ st2, ParallelFor.__enter__ re_match self st1
                     = (Ok (Some (loop_handle code v)), st2)
                     ∧ stack_of st2 = Some (Pipeline.stack p ++ [self])).
Proof.
  intros self. eexists. split; [apply parallel_for_init_run|]. fold self.
  set (o := mkOpsGroup "for_loop" [] [] (Some ("for-loop-" +:+ code)) [] None
                       (Some (loop_handle code v)) None None
                       (Some (isinstance_PipelineParam v))).
  set (st1 := mkState _ _ _).
  assert (Ho : group_heap st1 !! self = Some o) by apply lookup_insert_eq.
  assert (Hattr : attr loop_args st1 self = Some (Some (loop_handle code v))).
  { unfold attr. by rewrite Ho. }
  split_and!; try done.
  - by intros param ->.
  - by intros items ->.
  - by intros la ->.
  - intros r st2 Hrun. unfold ParallelFor.__enter__ in Hrun.
    apply bind_inv in Hrun as [(x & st' & Henter & Hk)|(e & _ & [=])].
    pose proof (keeps_attr_enter loop_args re_match self
                  ltac:(done) ltac:(done) ltac:(done) st1 self) as Hkeep.
    rewrite Henter, Hattr in Hkeep. simpl in Hkeep.
    apply bind_inv in Hk as [(o' & st'' & Hget & Hret)|(e & _ & [=])].
    unfold get_group in Hget. unfold attr in Hkeep.
    destruct (group_heap st' !! self) as [o''|]; [|done].
    simpl in Hkeep. unfold mret, M_ret in Hret. by simplify_eq.
  - intros p found Hp Htop Hlook.
    assert (Htop1 : top_alive st1).
    { intros p' top Hp' Hlast. simpl in *.
      destruct (decide (top = self)) as [->|Hne].
      - rewrite lookup_insert_eq. eauto.
      - rewrite lookup_insert_ne by done. by eapply Htop. }
    pose proof (enter_run re_match self o p found st1 Hp Ho Htop1 Hlook) as Henter.
    unfold ParallelFor.__enter__.
    rewrite (bind_ok _ _ _ _ _ Henter).
    pose proof (entered_state_attr_self loop_args found self o p st1 ltac:(done)) as Hla.
    unfold attr in Hla.
    destruct (group_heap (entered_state found self o p st1) !! self) as [o'|] eqn:Ho';
      [|done].
    rewrite (bind_ok _ _ _ _ _ (get_group_ok _ _ _ Ho')), ret_run.
    assert (Hhandle : loop_args o' = Some (loop_handle code v)).
    { simpl in Hla. injection Hla as ->. by destruct found. }
    rewrite Hhandle. eexists. split; [reflexivity|].
    unfold stack_of. simpl. by destruct found.
Qed.

Lemma parallel_for_enter_returns_handle_witness :
  ∃ st1 st2,
    ParallelFor.__init__ "ab12" (ItemList ["a"; "b"]) fresh_build
      = (Ok (fresh (dom (group_heap fresh_build))), st1)
    ∧ ParallelFor.__enter__ py_re_match (fresh (dom (group_heap fresh_build))) st1
      = (Ok (Some (Wrapped (LoopArgumentsOfItems ["a"; "b"] "ab12"))), st2).
Proof.
  destruct (parallel_for_enter_returns_handle py_re_match "ab12" (ItemList ["a"; "b"])
              fresh_build) as (st1 & Hinit & _ & _ & _ & _ & _ & Hreturns).
  destruct (Hreturns (Pipeline.mk [] [] 0) None) as (st2 & Henter & _).
  - reflexivity.
  - intros p top [= <-] Hlast. discriminate.
  - rewrite parallel_for_init_run in Hinit. injection Hinit as <-.
    vm_compute. reflexivity.
  - exists st1, st2. split; [exact Hinit|exact Henter].
Defined.

Lemma enter_without_name_witness :
  ∃ st', __enter__ py_re_match 1 fresh_build = (Ok 1, st')
         ∧ attr recursive_ref st' 1 = Some None
         ∧ attr name st' 1 = Some (Some "condition-1").
Proof.
  destruct (enter_without_name py_re_match 1
              (mkOpsGroup "condition" [] [] None [] None None None None None)
              (Pipeline.mk [] [] 0) fresh_build)
    as [_ (st' & Henter & Href & Hname & _)].
  - reflexivity.
  - reflexivity.
  - reflexivity.
  - intros p top [= <-] Hlast. discriminate.
  - exists st'. split_and!; [exact Henter|exact Href|].
    rewrite Hname. vm_compute. reflexivity.
Defined.



(** ** Checks on concrete inputs *)

Example py_re_match_digits : py_re_match "^graph-foo-[\d]+$" "graph-foo-12" = Ok true.
Proof. reflexivity. Qed.

Example py_re_match_no_digit : py_re_match "^graph-foo-[\d]+$" "graph-foo-" = Ok false.
Proof. reflexivity. Qed.

Example py_re_match_trailing : py_re_match "^graph-foo-[\d]+$" "graph-foo-1x" = Ok false.
Proof. reflexivity. Qed.

Example py_re_match_line_feed :
  py_re_match "^graph-foo-[\d]+$" ("graph-foo-1" +:+ String line_feed "") = Ok true.
Proof. reflexivity. Qed.

Example py_re_match_outside : py_re_match "^graph-f.o-[\d]+$" "graph-foo-12" = Raise NotModelled.
Proof. reflexivity. Qed.

Example name_pattern_underscores :
  name_pattern "graph" "flip_component" = "^graph-flip-component-[\d]+$".
Proof. reflexivity. Qed.

Example nested_scopes_run :
  (run_block 5 py_re_match nested_scopes fresh_build).1 = Ok tt
  ∧ attr name (run_block 5 py_re_match nested_scopes fresh_build).2 1 = Some (Some "condition-1")
  ∧ attr name (run_block 5 py_re_match nested_scopes fresh_build).2 3
    = Some (Some "graph-flip-component-2")
  ∧ attr name (run_block 5 py_re_match nested_scopes fresh_build).2 2 = Some (Some "condition-3")
  ∧ attr groups (run_block 5 py_re_match nested_scopes fresh_build).2 1 = Some [3]
  ∧ default_pipeline (run_block 5 py_re_match nested_scopes fresh_build).2
    = Some (Pipeline.mk [1; 3; 2] [] 3).
Proof. vm_compute. by split_and!. Qed.

Example list_remove_first_only : list_remove 7 [8; 7; 9; 7] = [8; 9; 7].
Proof. reflexivity. Qed.

Example exit_on_empty_stack :
  (__exit__ 1 fresh_build).1 = Raise StackUnderflowError.
Proof. reflexivity. Qed.

(** * Further properties *)

(** ** Invariants, generically *)

Section keeps.
Variable R : State → State → Prop.
Hypothesis R_refl : ∀ st, R st st.
Hypothesis R_trans : ∀ st1 st2 st3, R st1 st2 → R st2 st3 → R st1 st3.

Lemma keeps_same_state {A} (m : M A) : same_state m → keeps R m.
Proof. intros H st. rewrite H. apply R_refl. Qed.

Lemma keeps_ret {A} (a : A) : keeps R (mret a).
Proof. intros st. apply R_refl. Qed.

Lemma keeps_raise {A} e : keeps R (@raise A e).
Proof. intros st. apply R_refl. Qed.

Lemma keeps_get_group g : keeps R (get_group g).
Proof. intros st. unfold get_group. destruct (group_heap st !! g); apply R_refl. Qed.

Lemma keeps_get_op x : keeps R (get_op x).
Proof. intros st. unfold get_op. destruct (op_heap st !! x); apply R_refl. Qed.

Lemma keeps_get_default_pipeline : keeps R get_default_pipeline.
Proof. intros st. apply R_refl. Qed.

Lemma keeps_bind {A B} (m : M A) (k : A → M B) :
  keeps R m → (∀ a, keeps R (k a)) → keeps R (m ≫= k).
Proof.
  intros Hm Hk st. specialize (Hm st). rewrite bind_run.
  destruct (m st) as [[a|e] st1]; simpl in *; [|done].
  eapply R_trans; [done|apply Hk].
Qed.

Lemma keeps_the_pipeline : keeps R the_pipeline.
Proof.
  apply keeps_bind; [apply keeps_get_default_pipeline|].
  intros [p|]; [apply keeps_ret|apply keeps_raise].
Qed.

Lemma keeps_for_each {A} (l : list A) body :
  (∀ x, keeps R (body x)) → keeps R (for_each l body).
Proof.
  intros Hb. induction l as [|x l IH]; simpl; [apply keeps_ret|].
  apply keeps_bind; [apply Hb|]. intros _. apply IH.
Qed.

Lemma keeps_update_group g F :
  (∀ st o, group_heap st !! g = Some o →
           R st (mkState (<[g := F o]> (group_heap st)) (op_heap st) (default_pipeline st))) →
  keeps R (update_group g F).
Proof.
  intros H st. unfold update_group.
  destruct (group_heap st !! g) as [o|] eqn:Ho; simpl; [by apply H|apply R_refl].
Qed.

(** A loop that returns has run its body at each element, from a store that
    [R] relates to the one the loop started from. *)
Lemma for_each_ok_elem {A} (l : list A) (body : A → M unit) x st st' :
  (∀ y, keeps R (body y)) →
  for_each l body st = (Ok tt, st') →
  x ∈ l →
  ∃ s s', R st s ∧ body x s = (Ok tt, s').
Proof.
  intros Hb. revert st. induction l as [|y l IH]; intros st Hrun Hx; [by inversion Hx|].
  simpl in Hrun. apply bind_inv in Hrun as [([] & st1 & Hy & Hrest)|(e & _ & [=])].
  apply elem_of_cons in Hx as [->|Hx].
  - exists st, st1. split; [apply R_refl|done].
  - destruct (IH st1 Hrest Hx) as (s & s' & HR & Hrun).
    exists s, s'. split; [|done].
    eapply R_trans; [|done]. specialize (Hb y st). by rewrite Hy in Hb.
Qed.
End keeps.

(** ** Removal, on every outcome *)

Lemma set_ops_same o : set_ops (ops o) o = o.
Proof. by destruct o. Qed.

Lemma list_remove_sublist x (l : list nat) : list_remove x l `sublist_of` l.
Proof.
  induction l as [|y l IH]; simpl; [constructor|].
  destruct (decide (x = y)); [by apply sublist_cons|by apply sublist_skip].
Qed.

Lemma list_remove_filter x (l : list nat) :
  filter (λ y, y ≠ x) (list_remove x l) = filter (λ y, y ≠ x) l.
Proof.
  induction l as [|y l IH]; simpl; [done|].
  destruct (decide (x = y)) as [->|Hne].
  - by rewrite filter_cons_False by (intros H; by apply H).
  - rewrite !filter_cons_True by done. by rewrite IH.
Qed.

Lemma filter_ne_notin (x : nat) (l : list nat) : x ∉ l → filter (λ y, y ≠ x) l = l.
Proof.
  induction l as [|y l IH]; [done|]. intros [Hne Hl]%not_elem_of_cons.
  rewrite filter_cons_True by done. by rewrite IH.
Qed.

Lemma dropped_refl op o : dropped op o o.
Proof. split_and!; [apply set_ops_same|done|done]. Qed.

Lemma dropped_trans op o1 o2 o3 : dropped op o1 o2 → dropped op o2 o3 → dropped op o1 o3.
Proof.
  intros (H1 & Hs1 & Hf1) (H2 & Hs2 & Hf2). split_and!.
  - rewrite <-H1, <-H2. by destruct o3.
  - by etrans.
  - congruence.
Qed.

Lemma dropped_remove op o : dropped op o (set_ops (list_remove op (ops o)) o).
Proof.
  split_and!; simpl.
  - by destruct o.
  - apply list_remove_sublist.
  - apply list_remove_filter.
Qed.

Lemma dropped_groups op o o' : dropped op o o' → groups o' = groups o.
Proof. intros (H & _ & _). by rewrite <-H. Qed.

Lemma dropped_notin op o o' : dropped op o o' → op ∉ ops o → o' = o.
Proof.
  intros (H & Hsub & Hf) Hnotin.
  assert (op ∉ ops o') as Hnotin' by (intros Hin; apply Hnotin; by eapply elem_of_sublist).
  rewrite !filter_ne_notin in Hf by done.
  rewrite <-H, <-Hf. by destruct o'.
Qed.

Lemma only_removes_refl op st : only_removes op st st.
Proof.
  split_and!; [done|done|]. intros g.
  destruct (group_heap st !! g); constructor. apply dropped_refl.
Qed.

Lemma only_removes_trans op st1 st2 st3 :
  only_removes op st1 st2 → only_removes op st2 st3 → only_removes op st1 st3.
Proof.
  intros (Ho1 & Hp1 & Hg1) (Ho2 & Hp2 & Hg2). split_and!; [congruence|congruence|].
  intros g. specialize (Hg1 g). specialize (Hg2 g).
  destruct Hg1; inversion Hg2; subst; constructor. by eapply dropped_trans.
Qed.

Lemma keeps_only_removes_remove_op_recursive op depth self :
  keeps (only_removes op) (remove_op_recursive depth self op).
Proof.
  revert self. induction depth as [|d IH]; intros self.
  { apply keeps_raise, only_removes_refl. }
  rewrite remove_op_recursive_S.
  apply keeps_bind; [apply only_removes_trans|apply keeps_get_group, only_removes_refl|].
  intros o. apply keeps_bind; [apply only_removes_trans| |].
  - case_bool_decide; [|apply keeps_ret, only_removes_refl].
    apply keeps_update_group; [apply only_removes_refl|].
    intros st o' Ho'. split_and!; [done|done|]. intros g. simpl.
    destruct (decide (g = self)) as [->|Hne].
    + rewrite lookup_insert_eq, Ho'. constructor. apply dropped_remove.
    + rewrite lookup_insert_ne by done.
      destruct (group_heap st !! g); constructor. apply dropped_refl.
  - intros _. apply keeps_bind; [apply only_removes_trans|apply keeps_get_group, only_removes_refl|].
    intros o'. apply keeps_for_each; [apply only_removes_refl|apply only_removes_trans|].
    intros c. apply IH.
Qed.

(** On every outcome, an error among them, [remove_op_recursive] has changed
    nothing but task lists, and those only by dropping occurrences of the task:
    the tasks and the context are the same, the same groups exist, and each
    group has its attributes and, in its task list, the other tasks in their
    order. *)
Theorem remove_op_recursive_only_drops depth self op st :
  op_heap (remove_op_recursive depth self op st).2 = op_heap st
  ∧ default_pipeline (remove_op_recursive depth self op st).2 = default_pipeline st
  ∧ ∀ g, option_Forall2 (dropped op)
           (group_heap st !! g)
           (group_heap (remove_op_recursive depth self op st).2 !! g).
Proof. apply (keeps_only_removes_remove_op_recursive op depth self st). Qed.

(** A task that is in no task list: [remove_op_recursive] leaves the store as
    it is, on every outcome. *)
Theorem remove_op_recursive_absent depth self op st :
  (∀ g o, group_heap st !! g = Some o → op ∉ ops o) →
  (remove_op_recursive depth self op st).2 = st.
Proof.
  intros Habsent.
  destruct (keeps_only_removes_remove_op_recursive op depth self st) as (Hop & Hp & Hg).
  destruct (remove_op_recursive depth self op st).2 as [h' ops' p'].
  destruct st as [h ops0 p]. simpl in *. subst. f_equal.
  apply map_eq. intros g. specialize (Hg g).
  destruct (h !! g) as [o|] eqn:Ho; inversion Hg as [o1 o' Hd|]; subst; [|done].
  f_equal. eapply dropped_notin; [done|]. by eapply Habsent.
Qed.

Lemma remove_op_recursive_absent_witness :
  (remove_op_recursive 20 0 99 deep_tree).2 = deep_tree.
Proof.
  apply (remove_op_recursive_absent 20 0 99 deep_tree).
  change (map_Forall (λ _ o, 99 ∉ ops o) (group_heap deep_tree)).
  apply (bool_decide_unpack _). vm_compute. exact I.
Defined.

(** On a tree within the recursion depth whose task lists under [self] hold no
    task twice, a second [remove_op_recursive] of the same task changes
    nothing: both calls return, and the second leaves the store of the first. *)
Theorem remove_op_recursive_idempotent rank depth self op st :
  ranked rank (group_heap st) →
  is_Some (group_heap st !! self) →
  rank self < depth →
  (∀ g o, group_heap st !! g = Some o → reachable (group_heap st) self g → NoDup (ops o)) →
  ∃ st', remove_op_recursive depth self op st = (Ok tt, st')
         ∧ remove_op_recursive depth self op st' = (Ok tt, st').
Proof.
  intros Hr Hself Hlt Hnd.
  destruct (remove_op_recursive_run rank op depth self st Hr Hself Hlt)
    as (V1 & st1 & Hrun1 & Hop1 & Hp1 & Hrem1 & HV1).
  assert (Hr1 : ranked rank (group_heap st1)) by (by eapply removal_ranked).
  assert (Hself1 : is_Some (group_heap st1 !! self)).
  { destruct Hself as [o Ho]. rewrite Hrem1, Ho. simpl. eauto. }
  destruct (remove_op_recursive_run rank op depth self st1 Hr1 Hself1 Hlt)
    as (V2 & st2 & Hrun2 & Hop2 & Hp2 & Hrem2 & HV2).
  exists st1. split; [done|]. rewrite Hrun2. f_equal.
  destruct st1 as [h1 ops1 p1], st2 as [h2 ops2 p2]. simpl in *. subst. f_equal.
  apply map_eq. intros g. rewrite Hrem2, Hrem1.
  destruct (group_heap st !! g) as [o|] eqn:Ho; simpl; [|done]. f_equal.
  destruct (decide (1 ≤ V2 g)) as [Hvisit|Hvisit].
  - apply HV2 in Hvisit as Hreach.
    apply (removal_reachable op V1 _ _ self g Hrem1) in Hreach.
    apply removed_notin. unfold removed. simpl.
    rewrite iter_list_remove_NoDup; [|by eapply Hnd|by apply HV1].
    apply list_remove_NoDup. by eapply Hnd.
  - assert (V2 g = 0) as -> by lia. apply removed_0.
Qed.

Lemma remove_op_recursive_idempotent_witness :
  ∃ st', remove_op_recursive 20 0 7 deep_tree = (Ok tt, st')
         ∧ remove_op_recursive 20 0 7 st' = (Ok tt, st').
Proof.
  apply (remove_op_recursive_idempotent deep_tree_rank 20 0 7 deep_tree).
  - exact deep_tree_ranked.
  - vm_compute. eauto.
  - vm_compute. lia.
  - intros g o Ho _. revert g o Ho.
    change (map_Forall (λ _ o, NoDup (ops o)) (group_heap deep_tree)).
    apply (bool_decide_unpack _). vm_compute. exact I.
Defined.

(** A group that is among its own children: [remove_op_recursive] never
    returns from it, whatever depth the recursion is allowed. *)
Theorem remove_op_recursive_cycle depth self op st o :
  group_heap st !! self = Some o →
  self ∈ groups o →
  (remove_op_recursive depth self op st).1 ≠ Ok tt.
Proof.
  revert st o. induction depth as [|d IH]; intros st o Ho Hin; [done|].
  destruct (remove_op_recursive (S d) self op st) as [r st'] eqn:Hrun. simpl.
  intros ->. rewrite remove_op_recursive_S in Hrun.
  rewrite (bind_ok _ _ _ _ _ (get_group_ok _ _ _ Ho)) in Hrun.
  apply bind_inv in Hrun as [([] & st1 & Hstep & Hrun)|(e & _ & [=])].
  assert (Hst1 : only_removes op st st1).
  { assert (Hk : keeps (only_removes op)
                   (if bool_decide (op ∈ ops o)
                    then update_group self (λ o, set_ops (list_remove op (ops o)) o)
                    else mret tt)).
    { case_bool_decide; [|apply keeps_ret, only_removes_refl].
      apply keeps_update_group; [apply only_removes_refl|].
      intros s o' Ho'. split_and!; [done|done|]. intros g. simpl.
      destruct (decide (g = self)) as [->|Hne].
      - rewrite lookup_insert_eq, Ho'. constructor. apply dropped_remove.
      - rewrite lookup_insert_ne by done.
        destruct (group_heap s !! g); constructor. apply dropped_refl. }
    specialize (Hk st). by rewrite Hstep in Hk. }
  apply bind_inv in Hrun as [(o1 & st1' & Hget & Hrun)|(e & _ & [=])].
  unfold get_group in Hget.
  destruct (group_heap st1 !! self) as [o1'|] eqn:Ho1; [|done]. simplify_eq.
  assert (Hgroups : groups o1 = groups o).
  { destruct Hst1 as (_ & _ & Hg). specialize (Hg self). rewrite Ho, Ho1 in Hg.
    inversion Hg; subst. by eapply dropped_groups. }
  rewrite Hgroups in Hrun.
  destruct (for_each_ok_elem (only_removes op) (only_removes_refl op) (only_removes_trans op)
              (groups o) (λ sub_group, remove_op_recursive d sub_group op) self st1' st')
    as (s & s' & Hs & Hself); [|done|done|].
  { intros y. apply keeps_only_removes_remove_op_recursive. }
  destruct Hs as (_ & _ & Hg). specialize (Hg self). rewrite Ho1 in Hg.
  inversion Hg as [o1' o2 Hd Heq1 Heq2|]; subst.
  apply (IH s o2); [done| |by rewrite Hself].
  rewrite (dropped_groups op o1 o2 Hd). by rewrite Hgroups.
Qed.

Lemma remove_op_recursive_cycle_witness :
  (remove_op_recursive 30 1 7 self_nested).1 ≠ Ok tt.
Proof.
  apply (remove_op_recursive_cycle 30 1 7 self_nested
           (mkOpsGroup "graph" [7] [1] (Some "graph-g-1") [] None None None None None)).
  - reflexivity.
  - simpl. apply (bool_decide_unpack _). vm_compute. exact I.
Defined.

(** ** Dependencies *)

(** [after] on an existing group returns the group itself and appends the
    dependency, so a chain of calls records the dependencies in the order of
    the calls; every other attribute and the rest of the store stay. *)
Theorem after_chain self a b o st :
  group_heap st !! self = Some o →
  (r ← after self a; after r b) st
  = (Ok self,
     mkState (<[self := set_dependencies (dependencies o ++ [a; b]) o]> (group_heap st))
             (op_heap st) (default_pipeline st)).
Proof.
  intros Ho. unfold after.
  erewrite bind_ok; [|erewrite bind_ok; [apply ret_run|by apply update_group_ok]].
  erewrite bind_ok; [|apply update_group_ok; apply lookup_insert_eq].
  rewrite ret_run. simpl. rewrite insert_insert_eq.
  by rewrite <-(assoc_L (++)).
Qed.

Lemma after_chain_witness :
  (r ← after 1 7; after r 8) fresh_build
  = (Ok 1,
     mkState (<[1 := mkOpsGroup "condition" [] [] None [7; 8] None None None None None]>
                (group_heap fresh_build))
             (op_heap fresh_build) (default_pipeline fresh_build)).
Proof.
  apply (after_chain 1 7 8 (mkOpsGroup "condition" [] [] None [] None None None None None)
           fresh_build).
  reflexivity.
Defined.

(** ** The recursion lookup, for every [re.match] *)

Lemma find_matching_sound re_match kind pattern l st m st' :
  find_matching re_match kind pattern l st = (Ok (Some m), st') →
  m ∈ l ∧ ∃ o nm, group_heap st !! m = Some o ∧ type o = kind ∧ name o = Some nm
                  ∧ re_match pattern nm = Ok true.
Proof.
  induction l as [|g l IH]; simpl; [by rewrite ret_run|].
  rewrite bind_run. unfold get_group.
  destruct (group_heap st !! g) as [o|] eqn:Ho; [|done].
  case_bool_decide as Hty.
  - destruct (name o) as [nm|] eqn:Hnm; [|done].
    destruct (re_match pattern nm) as [[|]|e] eqn:Hre; [| |done].
    + rewrite ret_run. intros [= <- <-]. split; [by left|]. by exists o, nm.
    + intros [Hin H]%IH. split; [by right|done].
  - intros [Hin H]%IH. split; [by right|done].
Qed.

(** Whatever [re.match] answers, a group that the lookup returns is a
    registered group of the kind asked for, it has a name, [re.match] accepted
    that name for the pattern of the kind and base name asked for, and the
    lookup has changed nothing. *)
Theorem lookup_returns_registered_of_kind re_match kind n st m st' :
  _get_matching_opsgroup_already_in_pipeline re_match kind n st = (Ok (Some m), st') →
  st' = st
  ∧ ∃ p base o nm,
      default_pipeline st = Some p ∧ n = Some base
      ∧ m ∈ Pipeline.groups p
      ∧ group_heap st !! m = Some o ∧ type o = kind ∧ name o = Some nm
      ∧ re_match (name_pattern kind base) nm = Ok true.
Proof.
  intros Hrun. split.
  { pose proof (same_state_lookup re_match kind n st) as Hs. by rewrite Hrun in Hs. }
  unfold _get_matching_opsgroup_already_in_pipeline in Hrun.
  rewrite (bind_ok _ _ _ _ _ (get_default_pipeline_run st)) in Hrun.
  destruct (default_pipeline st) as [p|]; [|done].
  destruct n as [base|]; [|done].
  apply find_matching_sound in Hrun as (Hin & o & nm & Ho & Hty & Hnm & Hre).
  exists p, base, o, nm. by split_and!.
Qed.

Lemma lookup_returns_registered_of_kind_witness :
  ∃ p o nm,
    default_pipeline recursive_call = Some p
    ∧ 1 ∈ Pipeline.groups p
    ∧ group_heap recursive_call !! 1 = Some o ∧ type o = "graph" ∧ name o = Some nm
    ∧ py_re_match (name_pattern "graph" "flip_component") nm = Ok true.
Proof.
  destruct (lookup_returns_registered_of_kind py_re_match "graph" (Some "flip_component")
              recursive_call 1 recursive_call)
    as (_ & p & base & o & nm & Hp & Hbase & Hin & Ho & Hty & Hnm & Hre).
  - reflexivity.
  - injection Hbase as <-. exists p, o, nm. by split_and!.
Defined.

Lemma find_matching_filter re_match kind pattern (P : nat → Prop) `{∀ g, Decision (P g)} l st :
  (∀ g o, g ∈ l → group_heap st !! g = Some o → (P g ↔ type o = kind)) →
  Forall (λ g, is_Some (group_heap st !! g)) l →
  (find_matching re_match kind pattern l st).1
  = (find_matching re_match kind pattern (filter P l) st).1.
Proof.
  intros HP. induction 1 as [|g l [o Ho] _ IH]; [done|].
  assert (HP' : ∀ g o, g ∈ l → group_heap st !! g = Some o → P g ↔ type o = kind).
  { intros g' o' Hin. apply HP. by right. }
  specialize (IH HP').
  destruct (decide (P g)) as [Hg|Hg].
  - rewrite filter_cons_True by done. simpl.
    rewrite !(bind_ok _ _ _ _ _ (get_group_ok _ _ _ Ho)).
    case_bool_decide; [|done].
    destruct (name o) as [nm|]; [|done].
    by destruct (re_match pattern nm) as [[|]|e].
  - rewrite filter_cons_False by done. simpl.
    rewrite (bind_ok _ _ _ _ _ (get_group_ok _ _ _ Ho)).
    rewrite bool_decide_false; [done|].
    intros Hty. apply Hg. eapply HP; [by left|done|done].
Qed.

(** The registered groups of other kinds do not bear on the lookup: it
    returns, or raises, what it does on the registry cut down to the groups of
    the kind asked for, and it reads no name of a group of another kind. *)
Theorem lookup_ignores_other_kinds re_match kind n p st :
  default_pipeline st = Some p →
  Forall (λ g, is_Some (group_heap st !! g)) (Pipeline.groups p) →
  (_get_matching_opsgroup_already_in_pipeline re_match kind n st).1
  = (_get_matching_opsgroup_already_in_pipeline re_match kind n (registry_of_kind kind st)).1.
Proof.
  intros Hp Halive. unfold _get_matching_opsgroup_already_in_pipeline.
  rewrite !(bind_ok _ _ _ _ _ (get_default_pipeline_run _)).
  unfold registry_of_kind at 1. simpl. rewrite Hp. simpl.
  destruct n as [base|]; [|done].
  rewrite (find_matching_filter re_match kind _ (λ g, attr type st g = Some kind)
             (Pipeline.groups p) st); [|by intros g o _ Ho; unfold attr; rewrite Ho; simpl;
                                         split; [intros [=]|intros ->]|done].
  clear Halive. generalize (filter (λ g, attr type st g = Some kind) (Pipeline.groups p)).
  intros l. induction l as [|g l IH]; [done|]. simpl.
  rewrite !bind_run. unfold get_group. simpl.
  destruct (group_heap st !! g) as [o|]; [|done].
  case_bool_decide; [|apply IH].
  destruct (name o) as [nm|]; [|done].
  destruct (re_match (name_pattern kind base) nm) as [[|]|e]; [done|apply IH|done].
Qed.

Lemma lookup_ignores_other_kinds_witness :
  (_get_matching_opsgroup_already_in_pipeline py_re_match "graph" (Some "flip_component")
     mixed_registry).1 = Ok (Some 1)
  ∧ (_get_matching_opsgroup_already_in_pipeline py_re_match "graph" (Some "flip_component")
       (registry_of_kind "graph" mixed_registry)).1 = Ok (Some 1).
Proof.
  rewrite <-(lookup_ignores_other_kinds py_re_match "graph" (Some "flip_component")
               (Pipeline.mk [0; 1] [0; 1] 1) mixed_registry).
  - split; reflexivity.
  - reflexivity.
  - repeat constructor; vm_compute; eauto.
Defined.

(** ** Scoped entry: errors, names, tasks *)

(** When the recursion lookup raises, scoped entry raises the same error and
    the store is as before: no reference is set, no name minted, no group id
    drawn, nothing pushed. *)
Theorem enter_lookup_error re_match self o p e st st' :
  default_pipeline st = Some p →
  group_heap st !! self = Some o →
  _get_matching_opsgroup_already_in_pipeline re_match (type o) (name o) st = (Raise e, st') →
  __enter__ re_match self st = (Raise e, st).
Proof.
  intros Hp Ho Hlook.
  assert (st' = st) as ->.
  { pose proof (same_state_lookup re_match (type o) (name o) st) as Hs. by rewrite Hlook in Hs. }
  unfold __enter__.
  rewrite (bind_ok _ _ _ _ _ (get_default_pipeline_run st)), Hp.
  rewrite (bind_ok _ _ _ _ _ (get_group_ok _ _ _ Ho)).
  by rewrite (bind_raise _ _ _ _ _ Hlook).
Qed.

Lemma enter_lookup_error_witness :
  __enter__ py_re_match 2 unnamed_registered = (Raise TypeError, unnamed_registered).
Proof.
  apply (enter_lookup_error py_re_match 2
           (mkOpsGroup "graph" [] [] (Some "flip_component") [] None None None None None)
           (Pipeline.mk [3; 1] [3; 1] 1) TypeError unnamed_registered unnamed_registered).
  - reflexivity.
  - reflexivity.
  - reflexivity.
Defined.

Lemma replace_no_underscore s : no_underscore (replace "_" "-" s) = true.
Proof.
  induction s as [|c s IH]; [done|]. simpl. rewrite IH, andb_true_r.
  by destruct (Ascii.eqb c "_") eqn:Hc; [|rewrite Hc].
Qed.

(** A name that scoped entry mints holds no underscore, whatever the kind and
    the given name hold. *)
Theorem minted_name_no_underscore re_match self o p st :
  default_pipeline st = Some p →
  group_heap st !! self = Some o →
  top_alive st →
  _get_matching_opsgroup_already_in_pipeline re_match (type o) (name o) st = (Ok None, st) →
  ∃ st' n, __enter__ re_match self st = (Ok self, st')
           ∧ attr name st' self = Some (Some n)
           ∧ no_underscore n = true.
Proof.
  intros Hp Ho Htop Hlook.
  exists (entered_state None self o p st), (minted_name o (Pipeline.group_id p + 1)%N).
  split; [by apply enter_run|].
  split; [by rewrite entered_state_attr_self|].
  apply replace_no_underscore.
Qed.

Lemma minted_name_no_underscore_witness :
  ∃ st' n, __enter__ py_re_match 3 fresh_build = (Ok 3, st')
           ∧ attr name st' 3 = Some (Some n)
           ∧ no_underscore n = true.
Proof.
  apply (minted_name_no_underscore py_re_match 3
           (mkOpsGroup "graph" [] [] (Some "flip_component") [] None None None None None)
           (Pipeline.mk [] [] 0) fresh_build).
  - reflexivity.
  - reflexivity.
  - intros p top [= <-] Hlast. discriminate.
  - reflexivity.
Defined.

Lemma pretty_N_go_nonempty x s : s ≠ "" → pretty_N_go x s ≠ "".
Proof.
  revert s. induction (N.lt_wf_0 x) as [x _ IH]; intros s Hs.
  destruct (decide (x = 0%N)) as [->|Hx]; [by rewrite pretty_N_go_0|].
  rewrite pretty_N_go_step by lia. apply IH; [apply N.div_lt; lia|done].
Qed.

Lemma pretty_N_nonempty (x : N) : pretty x ≠ "".
Proof.
  unfold pretty, pretty_N. case_decide; [done|].
  rewrite pretty_N_go_step by lia. by apply pretty_N_go_nonempty.
Qed.

Lemma string_app_empty_r (s : string) : s +:+ "" = s.
Proof. induction s as [|c s IH]; [done|]. by rewrite string_app_cons, IH. Qed.

Lemma is_match_attr h h' kind prefix g :
  type <$> h' !! g = type <$> h !! g →
  name <$> h' !! g = name <$> h !! g →
  is_match h' kind prefix g = is_match h kind prefix g.
Proof.
  unfold is_match. intros Hty Hnm.
  destruct (h' !! g) as [o'|], (h !! g) as [o|]; simpl in *; try done.
  by simplify_eq; rewrite Hty, Hnm.
Qed.

Lemma find_app_last (f : nat → bool) l x :
  (∀ g, g ∈ l → f g = true → g = x) → f x = true → List.find f (l ++ [x]) = Some x.
Proof.
  intros Hl Hx. induction l as [|y l IH]; simpl; [by rewrite Hx|].
  destruct (f y) eqn:Hy.
  - f_equal. apply Hl; [by left|done].
  - apply IH. intros g Hg. apply Hl. by right.
Qed.

(** The name minted for a group is what the lookup recognises: once a group
    with a base name has been entered without a match, the lookup for its kind
    and base name returns that very group. *)
Theorem minted_name_found re_match self o p base st :
  literal_semantics re_match →
  default_pipeline st = Some p →
  group_heap st !! self = Some o →
  name o = Some base →
  regex_literal (name_prefix (type o) base) = true →
  lookup_safe (group_heap st) (type o) (Pipeline.groups p) →
  top_alive st →
  _get_matching_opsgroup_already_in_pipeline re_match (type o) (Some base) st = (Ok None, st) →
  ∃ st', __enter__ re_match self st = (Ok self, st')
         ∧ _get_matching_opsgroup_already_in_pipeline re_match (type o) (Some base) st'
           = (Ok (Some self), st').
Proof.
  intros Hre Hp Ho Hn Hlit Hsafe Htop Hnone.
  set (st' := entered_state None self o p st).
  exists st'. split; [apply enter_run; try done; by rewrite Hn|].
  assert (Hfound : List.find (is_match (group_heap st) (type o) (name_prefix (type o) base))
                             (Pipeline.groups p) = None).
  { rewrite (lookup_run re_match o p base st Hre Hp Hlit Hsafe) in Hnone. by simplify_eq. }
  pose proof (find_none _ _ Hfound) as Hno.
  assert (Hty : ∀ g, type <$> group_heap st' !! g = type <$> group_heap st !! g).
  { intros g. unfold st', entered_state. simpl. rewrite push_heap_attr by done.
    destruct (decide (g = self)) as [->|Hne].
    - by rewrite lookup_insert_eq, Ho.
    - by rewrite lookup_insert_ne. }
  assert (Hnm : ∀ g, g ≠ self → name <$> group_heap st' !! g = name <$> group_heap st !! g).
  { intros g Hne. unfold st', entered_state. simpl. rewrite push_heap_attr by done.
    by rewrite lookup_insert_ne. }
  assert (Hself : ∃ o', group_heap st' !! self = Some o' ∧ type o' = type o
                        ∧ name o' = Some (name_prefix (type o) base
                                          +:+ pretty (Pipeline.group_id p + 1)%N)).
  { pose proof (entered_state_attr_self type None self o p st ltac:(done)) as Ht.
    pose proof (entered_state_attr_self name None self o p st ltac:(done)) as Hname.
    unfold attr in Ht, Hname. fold st' in Ht, Hname.
    destruct (group_heap st' !! self) as [o'|] eqn:Ho'; [|done].
    simpl in Ht, Hname. injection Ht as Ht. injection Hname as Hname.
    exists o'. split_and!; [done|done|].
    rewrite Hname. f_equal. rewrite minted_name_eq. simpl. rewrite Hn.
    unfold name_prefix. by rewrite !string_app_assoc. }
  destruct Hself as (o' & Ho' & Hty' & Hnm').
  assert (Hmatch : is_match (group_heap st') (type o) (name_prefix (type o) base) self = true).
  { unfold is_match. rewrite Ho', Hty', bool_decide_true by done. rewrite Hnm'. simpl.
    apply literal_digits_match_spec.
    exists (pretty (Pipeline.group_id p + 1)%N), "".
    split_and!; [by rewrite string_app_empty_r|apply pretty_N_nonempty|apply pretty_N_digits
                |by left]. }
  assert (Hp' : default_pipeline st' = Some (entered_pipeline None self p)) by done.
  rewrite <-Hty'.
  rewrite (lookup_run re_match o' (entered_pipeline None self p) base st' Hre Hp').
  - f_equal. f_equal. rewrite Hty'.
    change (Pipeline.groups (entered_pipeline None self p)) with (Pipeline.groups p ++ [self]).
    apply find_app_last; [|done].
    intros g Hg Hgm. destruct (decide (g = self)) as [->|Hne]; [done|].
    rewrite (is_match_attr (group_heap st)) in Hgm by auto.
    rewrite Hno in Hgm; done.
  - by rewrite Hty'.
  - rewrite Hty'. unfold lookup_safe.
    change (Pipeline.groups (entered_pipeline None self p)) with (Pipeline.groups p ++ [self]).
    apply Forall_app. split.
    + eapply Forall_impl; [exact Hsafe|]. intros g (og & Hog & Hnamed).
      destruct (decide (g = self)) as [->|Hne].
      * exists o'. split; [done|]. rewrite Hnm'. eauto.
      * pose proof (Hty g) as Htg. pose proof (Hnm g Hne) as Hng.
        rewrite Hog in Htg, Hng.
        destruct (group_heap st' !! g) as [og'|] eqn:Hog'; [|done].
        injection Htg as Htg. injection Hng as Hng.
        exists og'. split; [done|]. by rewrite Htg, Hng.
    + constructor; [|constructor]. exists o'. split; [done|]. rewrite Hnm'. eauto.
Qed.

Lemma minted_name_found_witness :
  ∃ st', __enter__ py_re_match 3 fresh_build = (Ok 3, st')
         ∧ _get_matching_opsgroup_already_in_pipeline py_re_match "graph"
             (Some "flip_component") st' = (Ok (Some 3), st').
Proof.
  apply (minted_name_found py_re_match 3
           (mkOpsGroup "graph" [] [] (Some "flip_component") [] None None None None None)
           (Pipeline.mk [] [] 0) "flip_component" fresh_build).
  - exact py_re_match_literal.
  - reflexivity.
  - reflexivity.
  - reflexivity.
  - reflexivity.
  - constructor.
  - intros p top [= <-] Hlast. discriminate.
  - reflexivity.
Defined.

Lemma same_payload_refl o : same_payload o o.
Proof. by repeat split. Qed.

Lemma same_payload_trans o1 o2 o3 :
  same_payload o1 o2 → same_payload o2 o3 → same_payload o1 o3.
Proof.
  intros (?&?&?&?&?&?&?) (?&?&?&?&?&?&?). repeat split; congruence.
Qed.

Lemma same_tasks_refl st : same_tasks st st.
Proof.
  split; [done|]. intros g. destruct (group_heap st !! g); constructor.
  apply same_payload_refl.
Qed.

Lemma same_tasks_trans st1 st2 st3 :
  same_tasks st1 st2 → same_tasks st2 st3 → same_tasks st1 st3.
Proof.
  intros [Ho1 Hg1] [Ho2 Hg2]. split; [congruence|].
  intros g. specialize (Hg1 g). specialize (Hg2 g).
  destruct Hg1; inversion Hg2; subst; constructor. by eapply same_payload_trans.
Qed.

Lemma keeps_same_tasks_update_group g F :
  (∀ o, same_payload o (F o)) → keeps same_tasks (update_group g F).
Proof.
  intros HF. apply keeps_update_group; [apply same_tasks_refl|].
  intros st o Ho. split; [done|]. intros g'. simpl.
  destruct (decide (g' = g)) as [->|Hne].
  - rewrite lookup_insert_eq, Ho. constructor. apply HF.
  - rewrite lookup_insert_ne by done.
    destruct (group_heap st !! g'); constructor. apply same_payload_refl.
Qed.

Lemma keeps_same_tasks_set_pipeline p : keeps same_tasks (set_pipeline p).
Proof.
  intros st. split; [done|]. intros g. simpl.
  destruct (group_heap st !! g); constructor. apply same_payload_refl.
Qed.

Lemma keeps_same_tasks_enter re_match self : keeps same_tasks (__enter__ re_match self).
Proof.
  pose proof same_tasks_refl as Hrefl. pose proof same_tasks_trans as Htrans.
  unfold __enter__.
  apply keeps_bind; [done|by apply keeps_get_default_pipeline|].
  intros [p|]; [|by apply keeps_raise].
  apply keeps_bind; [done|by apply keeps_get_group|]. intros o.
  apply keeps_bind; [done|by apply keeps_same_state, same_state_lookup|]. intros r.
  apply keeps_bind; [done|by apply keeps_same_tasks_update_group|]. intros _.
  apply keeps_bind; [done| |].
  - destruct r; [by apply keeps_ret|]. unfold _make_name_unique.
    apply keeps_bind; [done|by apply keeps_get_default_pipeline|].
    intros [p'|]; [|by apply keeps_raise].
    apply keeps_bind; [done|by apply keeps_get_group|]. intros o'.
    apply keeps_bind; [done| |].
    + unfold get_next_group_id.
      apply keeps_bind; [done|by apply keeps_the_pipeline|]. intros p''.
      apply keeps_bind; [done|apply keeps_same_tasks_set_pipeline|]. intros _.
      by apply keeps_ret.
    + intros id. apply keeps_bind; [done|by apply keeps_same_tasks_update_group|].
      intros _. by apply keeps_same_tasks_update_group.
  - intros _. apply keeps_bind; [done| |intros; by apply keeps_ret].
    unfold push_ops_group.
    apply keeps_bind; [done|by apply keeps_the_pipeline|]. intros p'.
    apply keeps_bind; [done| |intros; apply keeps_same_tasks_set_pipeline].
    destruct (last (Pipeline.stack p')); [by apply keeps_same_tasks_update_group|].
    by apply keeps_ret.
Qed.

(** On every outcome, scoped entry has moved no task and rebuilt no group: the
    tasks are the same, the same groups exist, and each group has its kind, its
    task list, its dependencies and its payload; what entry changes is names,
    recursion references, child lists and the context. *)
Theorem enter_keeps_tasks re_match self st :
  op_heap (__enter__ re_match self st).2 = op_heap st
  ∧ ∀ g, option_Forall2 same_payload
           (group_heap st !! g)
           (group_heap (__enter__ re_match self st).2 !! g).
Proof. apply (keeps_same_tasks_enter re_match self st). Qed.

(** ** The variants, built and entered *)

(** The bound that a Parallelism-Limit group stores is never zero or negative:
    the construction either fails, on a negative bound only, or returns a new
    group of kind [parallel_limit] without a name whose bound is unset or is
    the positive bound that was given. *)
Theorem parallelism_stored_positive v st :
  ((Parallelism.__init__ v st).1 = Raise AssertionError
   ∧ ∃ n, v = Some n ∧ (n < 0)%Z)
  ∨ ((Parallelism.__init__ v st).1 = Ok (fresh (dom (group_heap st)))
     ∧ group_heap st !! fresh (dom (group_heap st)) = None
     ∧ attr type (Parallelism.__init__ v st).2 (fresh (dom (group_heap st)))
       = Some "parallel_limit"
     ∧ attr name (Parallelism.__init__ v st).2 (fresh (dom (group_heap st))) = Some None
     ∧ (attr parallelism (Parallelism.__init__ v st).2 (fresh (dom (group_heap st)))
          = Some None
        ∨ ∃ n, v = Some n ∧ (0 < n)%Z
               ∧ attr parallelism (Parallelism.__init__ v st).2 (fresh (dom (group_heap st)))
                 = Some (Some n))).
Proof.
  unfold Parallelism.__init__.
  rewrite (bind_ok _ _ _ _ _ (init_run _ _ _)).
  pose proof (fresh_group_None st) as Hfresh.
  destruct v as [n|].
  - case_bool_decide as Hn0.
    + case_bool_decide as Hpos.
      * right. erewrite bind_ok; [|apply update_group_ok; apply lookup_insert_eq].
        rewrite ret_run. unfold attr. simpl. rewrite lookup_insert_eq. simpl.
        split_and!; try done. right. by exists n.
      * left. split; [done|]. exists n. split; [done|lia].
    + right. rewrite ret_run. unfold attr. simpl. rewrite lookup_insert_eq. simpl.
      split_and!; try done. by left.
  - right. rewrite ret_run. unfold attr. simpl. rewrite lookup_insert_eq. simpl.
    split_and!; try done. by left.
Qed.

(** A Parallel-For group built with the code [code] and entered without a
    match is named [for-loop-for-loop-<code>-<id>]: the kind goes before the
    name that the constructor gave, which starts with the kind already. *)
Theorem parallel_for_entered_name re_match code v p st :
  default_pipeline st = Some p →
  top_alive st →
  let self := fresh (dom (group_heap st)) in
  let st1 := (ParallelFor.__init__ code v st).2 in
  _get_matching_opsgroup_already_in_pipeline re_match "for_loop"
    (Some ("for-loop-" +:+ code)) st1 = (Ok None, st1) →
  ∃ st2, ParallelFor.__enter__ re_match self st1 = (Ok (Some (loop_handle code v)), st2)
         ∧ attr name st2 self
           = Some (Some ("for-loop-for-loop-" +:+ replace "_" "-" code +:+ "-"
                         +:+ pretty (Pipeline.group_id p + 1)%N))
         ∧ attr recursive_ref st2 self = Some None.
Proof.
  intros Hp Htop self st1 Hlook. unfold st1 in *.
  rewrite parallel_for_init_run in *. fold self in Hlook |- *.
  set (o := mkOpsGroup "for_loop" [] [] (Some ("for-loop-" +:+ code)) [] None
                       (Some (loop_handle code v)) None None
                       (Some (isinstance_PipelineParam v))) in *.
  set (st1' := mkState _ _ _) in *.
  assert (Ho : group_heap st1' !! self = Some o) by apply lookup_insert_eq.
  assert (Htop1 : top_alive st1').
  { intros p' top Hp' Hlast. simpl in *.
    destruct (decide (top = self)) as [->|Hne].
    - rewrite lookup_insert_eq. eauto.
    - rewrite lookup_insert_ne by done. by eapply Htop. }
  pose proof (enter_run re_match self o p None st1' Hp Ho Htop1 Hlook) as Henter.
  unfold ParallelFor.__enter__. rewrite (bind_ok _ _ _ _ _ Henter).
  pose proof (entered_state_attr_self loop_args None self o p st1' ltac:(done)) as Hla.
  pose proof (entered_state_attr_self name None self o p st1' ltac:(done)) as Hname.
  pose proof (entered_state_attr_self recursive_ref None self o p st1' ltac:(done)) as Href.
  unfold attr in Hla.
  destruct (group_heap (entered_state None self o p st1') !! self) as [o'|] eqn:Ho'; [|done].
  rewrite (bind_ok _ _ _ _ _ (get_group_ok _ _ _ Ho')), ret_run.
  simpl in Hla. injection Hla as ->.
  eexists. split; [reflexivity|]. split; [|done].
  rewrite Hname. do 2 f_equal. simpl. rewrite minted_name_eq. simpl.
  rewrite !replace_app, !string_app_assoc. reflexivity.
Qed.

Lemma parallel_for_entered_name_witness :
  ∃ st2, ParallelFor.__enter__ py_re_match (fresh (dom (group_heap fresh_build)))
           (ParallelFor.__init__ "ab_12" (ItemList ["a"; "b"]) fresh_build).2
         = (Ok (Some (Wrapped (LoopArgumentsOfItems ["a"; "b"] "ab_12"))), st2)
         ∧ attr name st2 (fresh (dom (group_heap fresh_build)))
           = Some (Some "for-loop-for-loop-ab-12-1").
Proof.
  destruct (parallel_for_entered_name py_re_match "ab_12" (ItemList ["a"; "b"])
              (Pipeline.mk [] [] 0) fresh_build) as (st2 & Henter & Hname & _).
  - reflexivity.
  - intros p top [= <-] Hlast. discriminate.
  - vm_compute. reflexivity.
  - exists st2. split; [exact Henter|]. rewrite Hname. vm_compute. reflexivity.
Defined.

Lemma update_group_ok_inv g F st st' :
  update_group g F st = (Ok tt, st') → is_Some (group_heap st' !! g).
Proof.
  unfold update_group. destruct (group_heap st !! g) as [o|]; [|done].
  intros [= <-]. simpl. rewrite lookup_insert_eq. eauto.
Qed.

(** Building a group, of whatever variant, is not entering it: on every
    outcome the context is as before (nothing registered, nothing pushed, no
    group id drawn), and a construction that returns gives a group that was no
    object before. *)
Theorem construction_leaves_context depth c st :
  default_pipeline (eval_ctor depth c st).2 = default_pipeline st
  ∧ match c with
    | Existing _ => True
    | _ => ∀ g st', eval_ctor depth c st = (Ok g, st') →
                    group_heap st !! g = None ∧ is_Some (group_heap st' !! g)
    end.
Proof.
  split; [apply same_ctx_eval_ctor|].
  pose proof (fresh_group_None st) as Hfresh.
  destruct c as [g0|group_type n|exit_op|code v|v]; [done|..]; intros g st' Hrun; simpl in Hrun.
  - rewrite init_run in Hrun. injection Hrun as <- <-. simpl.
    rewrite lookup_insert_eq. eauto.
  - unfold ExitHandler.__init__ in Hrun.
    rewrite (bind_ok _ _ _ _ _ (init_run _ _ _)) in Hrun.
    apply bind_inv in Hrun as [(c & st1 & _ & Hrun)|(e & _ & [=])].
    destruct (dependent_names c); [|done].
    apply bind_inv in Hrun as [([] & st2 & _ & Hrun)|(e & _ & [=])].
    apply bind_inv in Hrun as [([] & st3 & _ & Hrun)|(e & _ & [=])].
    apply bind_inv in Hrun as [([] & st4 & Hupd & Hret)|(e & _ & [=])].
    rewrite ret_run in Hret. injection Hret as <- <-.
    split; [done|]. by eapply update_group_ok_inv.
  - rewrite parallel_for_init_run in Hrun. injection Hrun as <- <-. simpl.
    rewrite lookup_insert_eq. eauto.
  - unfold Parallelism.__init__ in Hrun.
    rewrite (bind_ok _ _ _ _ _ (init_run _ _ _)) in Hrun.
    assert (Hret : ∀ s : State, (mret (fresh (dom (group_heap st))) : M nat) s = (Ok g, st') →
                   is_Some (group_heap s !! fresh (dom (group_heap st))) →
                   group_heap st !! g = None ∧ is_Some (group_heap st' !! g)).
    { intros s Hs Hsome. rewrite ret_run in Hs. by injection Hs as <- <-. }
    destruct v as [n|].
    + case_bool_decide.
      * case_bool_decide; [|done].
        apply bind_inv in Hrun as [([] & st1 & Hupd & Hrun)|(e & _ & [=])].
        apply (Hret st1 Hrun). by eapply update_group_ok_inv.
      * apply (Hret _ Hrun). simpl. rewrite lookup_insert_eq. eauto.
    + apply (Hret _ Hrun). simpl. rewrite lookup_insert_eq. eauto.
Qed.

Lemma construction_leaves_context_witness :
  default_pipeline (eval_ctor 20 (NewExitHandler 7) deep_tree).2 = default_pipeline deep_tree
  ∧ group_heap deep_tree !! 6 = None
  ∧ is_Some (group_heap (eval_ctor 20 (NewExitHandler 7) deep_tree).2 !! 6).
Proof.
  destruct (construction_leaves_context 20 (NewExitHandler 7) deep_tree) as [Hctx Hnew].
  split; [exact Hctx|]. apply Hnew. vm_compute. reflexivity.
Defined.

(** [with Parallelism(n)] for a positive bound [n]: the group that is built and
    entered is named [parallel-limit-<id>] from the next group id, whatever
    groups are registered, it still stores the bound [n], and it is on top of
    the stack. *)
Theorem parallelism_entered re_match n p st :
  (0 < n)%Z →
  default_pipeline st = Some p →
  top_alive st →
  let self := fresh (dom (group_heap st)) in
  ∃ st1 st2,
    Parallelism.__init__ (Some n) st = (Ok self, st1)
    ∧ __enter__ re_match self st1 = (Ok self, st2)
    ∧ attr name st2 self
      = Some (Some ("parallel-limit-" +:+ pretty (Pipeline.group_id p + 1)%N))
    ∧ attr parallelism st2 self = Some (Some n)
    ∧ attr recursive_ref st2 self = Some None
    ∧ stack_of st2 = Some (Pipeline.stack p ++ [self]).
Proof.
  intros Hn Hp Htop self.
  set (o := mkOpsGroup "parallel_limit" [] [] None [] None None (Some n) None None).
  set (st1 := mkState (<[self := o]> (group_heap st)) (op_heap st) (default_pipeline st)).
  assert (Hinit : Parallelism.__init__ (Some n) st = (Ok self, st1)).
  { unfold Parallelism.__init__.
    rewrite (bind_ok _ _ _ _ _ (init_run _ _ _)).
    rewrite bool_decide_true by lia. rewrite bool_decide_true by lia.
    erewrite bind_ok; [|apply update_group_ok; apply lookup_insert_eq].
    rewrite ret_run. unfold st1. simpl. by rewrite insert_insert_eq. }
  assert (Ho : group_heap st1 !! self = Some o) by apply lookup_insert_eq.
  assert (Htop1 : top_alive st1).
  { intros p' top Hp' Hlast. simpl in *.
    destruct (decide (top = self)) as [->|Hne].
    - rewrite lookup_insert_eq. eauto.
    - rewrite lookup_insert_ne by done. by eapply Htop. }
  assert (Hlook : _get_matching_opsgroup_already_in_pipeline re_match (type o) (name o) st1
                  = (Ok None, st1)).
  { unfold _get_matching_opsgroup_already_in_pipeline.
    rewrite (bind_ok _ _ _ _ _ (get_default_pipeline_run st1)). simpl. by rewrite Hp. }
  exists st1, (entered_state None self o p st1).
  split; [done|]. split; [by apply enter_run|].
  rewrite !entered_state_attr_self by done.
  split_and!; try done.
  simpl. by rewrite minted_name_eq.
Qed.

Lemma parallelism_entered_witness :
  ∃ st1 st2,
    Parallelism.__init__ (Some 2%Z) fresh_build = (Ok (fresh (dom (group_heap fresh_build))), st1)
    ∧ __enter__ py_re_match (fresh (dom (group_heap fresh_build))) st1
      = (Ok (fresh (dom (group_heap fresh_build))), st2)
    ∧ attr name st2 (fresh (dom (group_heap fresh_build))) = Some (Some "parallel-limit-1")
    ∧ attr parallelism st2 (fresh (dom (group_heap fresh_build))) = Some (Some 2%Z).
Proof.
  destruct (parallelism_entered py_re_match 2 (Pipeline.mk [] [] 0) fresh_build)
    as (st1 & st2 & Hinit & Henter & Hname & Hbound & _).
  - lia.
  - reflexivity.
  - intros p top [= <-] Hlast. discriminate.
  - exists st1, st2. split_and!; [exact Hinit|exact Henter| |exact Hbound].
    rewrite Hname. vm_compute. reflexivity.
Defined.

Lemma replace_idem s : replace "_" "-" (replace "_" "-" s) = replace "_" "-" s.
Proof.
  induction s as [|c s IH]; [done|]. simpl. rewrite IH.
  destruct (Ascii.eqb c "_") eqn:Hc; [done|by rewrite Hc].
Qed.

(** A name is not minted once and for all: a second [_make_name_unique] on a
    group takes the name of the first for the given name, so the kind comes
    twice and both group ids stay in the name. *)
Theorem make_name_unique_twice self o p st :
  default_pipeline st = Some p →
  group_heap st !! self = Some o →
  let id1 := (Pipeline.group_id p + 1)%N in
  let id2 := (Pipeline.group_id p + 2)%N in
  ∃ st', (_make_name_unique self;; _make_name_unique self) st = (Ok tt, st')
         ∧ attr name st' self
           = Some (Some (replace "_" "-" (type o +:+ "-") +:+ minted_name o id1
                         +:+ "-" +:+ pretty id2))
         ∧ counter_of st' = Some id2.
Proof.
  intros Hp Ho id1 id2.
  rewrite (bind_ok _ _ _ _ _ (make_name_unique_run self o p st Hp Ho)).
  set (st1 := mkState _ _ _).
  assert (Hp1 : default_pipeline st1 = Some (Pipeline.mk (Pipeline.groups p) (Pipeline.stack p)
                                               (Pipeline.group_id p + 1)%N)) by done.
  assert (Ho1 : group_heap st1 !! self = Some (set_name (Some (minted_name o id1)) o))
    by apply lookup_insert_eq.
  rewrite (make_name_unique_run self _ _ st1 Hp1 Ho1).
  eexists. split; [reflexivity|]. unfold attr, counter_of. simpl.
  rewrite lookup_insert_eq. simpl. split.
  - do 2 f_equal. rewrite minted_name_eq. simpl.
    assert (Hid : (Pipeline.group_id p + 1 + 1)%N = id2) by (unfold id2; lia).
    rewrite Hid, !replace_app.
    assert (Hfix : replace "_" "-" (minted_name o id1) = minted_name o id1).
    { unfold minted_name. apply replace_idem. }
    rewrite Hfix. by rewrite !string_app_assoc.
  - f_equal. unfold id2. lia.
Qed.

Lemma make_name_unique_twice_witness :
  ∃ st', (_make_name_unique 3;; _make_name_unique 3) fresh_build = (Ok tt, st')
         ∧ attr name st' 3 = Some (Some "graph-graph-flip-component-1-2").
Proof.
  destruct (make_name_unique_twice 3
              (mkOpsGroup "graph" [] [] (Some "flip_component") [] None None None None None)
              (Pipeline.mk [] [] 0) fresh_build) as (st' & Hrun & Hname & _).
  - reflexivity.
  - reflexivity.
  - exists st'. split; [exact Hrun|]. rewrite Hname. vm_compute. reflexivity.
Defined.
